(** * SetupService (services/setup.js): the one-time bootstrap of an instance

    A shallow embedding of the three static methods of [SetupService]
    ([isAvailable], [validate], [setup]) over the services they call.  The
    services ([UsersService], [SettingsService], [MigrationService],
    [SettingsModel]), the error classes and [INSTALL_LOCK] live in other
    modules of the application; they are taken as an interface ([Services])
    and every general theorem holds for all implementations of it.  An
    in-memory implementation ([Mem]) is given later, to run the code on
    concrete inputs. *)

From Stdlib Require Import String List Bool Arith PeanoNat Lia.
Import ListNotations.
Open Scope string_scope.
Open Scope list_scope.

Set Implicit Arguments.

(** ** Errors

    The error classes of [../errors] that [setup.js] imports, and everything
    else a service may throw. *)

(** Modelled from the spec: the classes of [../errors] (only imported by
    [setup.js]); section 7 lists them as distinct kinds, so no class is a
    subclass of another, and [ErrOther] stands for the errors that the
    services throw and that [setup.js] never names. *)
Inductive Err : Type :=
| ErrMissingEmail
| ErrInstallLock
| ErrSettingsInit
| ErrSettingsNotInit
| ErrOther (name : string).

(** [err instanceof ErrSettingsNotInit] *)
Definition instanceof_ErrSettingsNotInit (err : Err) : bool :=
  match err with
  | ErrSettingsNotInit => true
  | _ => false
  end.

(** ** Promises

    A promise, seen once the run is over: how it settled, and when.  The
    instant only matters to [Promise.all], which rejects with the reason of
    the promise that rejected first. *)
Record Promise (A : Type) : Type := mkPromise {
  settled_at : nat;
  outcome : Err + A;
}.

Definition resolved {A} (t : nat) (v : A) : Promise A :=
  {| settled_at := t; outcome := inr v |}.

Definition rejected {A} (t : nat) (e : Err) : Promise A :=
  {| settled_at := t; outcome := inl e |}.

(** The reason a promise rejected with, if it did. *)
Definition rejection {A} (p : Promise A) : option Err :=
  match outcome p with
  | inl e => Some e
  | inr _ => None
  end.

(** The earliest rejection among [ps]; of two simultaneous ones, the one
    earlier in the array. *)
Fixpoint first_rejection {A} (ps : list (Promise A)) : option (nat * Err) :=
  match ps with
  | [] => None
  | p :: rest =>
      match outcome p, first_rejection rest with
      | inl e, Some (t, e') =>
          if (settled_at p <=? t)%nat then Some (settled_at p, e) else Some (t, e')
      | inl e, None => Some (settled_at p, e)
      | inr _, r => r
      end
  end.

(** The values of an array of promises that all fulfilled. *)
Fixpoint fulfilled_values {A} (ps : list (Promise A)) : list A :=
  match ps with
  | [] => []
  | p :: rest =>
      match outcome p with
      | inr v => v :: fulfilled_values rest
      | inl _ => fulfilled_values rest
      end
  end.

(** [Promise.all(ps)]: fulfils with all the values once every promise has
    fulfilled, rejects as soon as one rejects, with its reason. *)
Definition Promise_all {A} (ps : list (Promise A)) : Promise (list A) :=
  match first_rejection ps with
  | Some (t, e) => rejected t e
  | None => resolved (fold_right Nat.max 0 (map (@settled_at A) ps))
                     (fulfilled_values ps)
  end.

(** ** The services [setup.js] calls

    A call of a service runs on the application's state ([World]: the
    configuration store, the account store, the migrations).  It either
    throws on the spot or returns a promise; its effect on the state is
    applied as one step, at the call.  For a call that is awaited before
    the next one is made this is the state the next call finds.  For calls
    joined by [Promise.all] it is the state once all of them have settled:
    when the join rejects, a sibling may still be running, so the state at
    that very moment is not given by this model; a state given after such
    a join is the state once the siblings have settled too. *)
Definition Op (W A : Type) : Type := W -> (Err + Promise A) * W.

Record Services : Type := {
  World : Type;
  Ctx : Type;
  Settings : Type;
  SettingsModel : Type;
  Migrations : Type;
  User : Type;
  (** what a promise nobody reads fulfils with *)
  Value : Type;
  (** [user.id] *)
  user_id : User -> string;
  (** [INSTALL_LOCK] of [../config] *)
  INSTALL_LOCK : bool;
  SettingsService_select : string -> Op World Settings;
  SettingsService_update : Settings -> Op World Settings;
  (** [new SettingsModel(settings)] *)
  SettingsModel_new : Settings -> SettingsModel;
  SettingsModel_validate : SettingsModel -> Op World Value;
  UsersService_isValidUsername : string -> bool -> Op World Value;
  UsersService_isValidPassword : string -> Op World Value;
  UsersService_createLocalUser :
    Ctx -> option string -> string -> string -> Op World User;
  UsersService_setRole : string -> string -> Op World Value;
  UsersService_confirmEmail : string -> option string -> Op World Value;
  MigrationService_listPending : Op World Migrations;
  MigrationService_run : Migrations -> Op World Value;
}.

(** ** The input of [validate] and [setup] *)

(** [{ email, username, password }]; [email] is [None] when the property is
    absent. *)
Record UserInput : Type := {
  email : option string;
  username : string;
  password : string;
}.

(** [!email] *)
Definition falsy (s : option string) : bool :=
  match s with
  | None => true
  | Some "" => true
  | Some _ => false
  end.

Section SetupService.

Variable S : Services.

Record SetupInput : Type := {
  settings : Settings S;
  user : UserInput;
}.

(** [{ settings, user }], what [setup] returns. *)
Record SetupResult : Type := {
  res_settings : Settings S;
  res_user : User S;
}.

(** *** The calls, and the record of a run *)

Inductive Call : Type :=
| CSelect (field : string)
| CUpdate (s : Settings S)
| CSettingsValidate (m : SettingsModel S)
| CIsValidUsername (name : string) (checkAgainstWordlist : bool)
| CIsValidPassword (pw : string)
| CCreateLocalUser (ctx : Ctx S) (mail : option string) (pw name : string)
| CSetRole (id role : string)
| CConfirmEmail (id : string) (mail : option string)
| CListPending
| CRun (ms : Migrations S).

(** One call as it happened: what was called, and the error it threw or its
    promise rejected with ([None]: the promise fulfilled). *)
Record Event : Type := {
  ev_call : Call;
  ev_error : option Err;
}.

Record Env : Type := {
  sigma : World S;
  log : list Event;
}.

(** *** Computations: state, the log of calls, and exceptions *)

Definition M (A : Type) : Type := Env -> (Err + A) * Env.

Definition ret {A} (a : A) : M A := fun env => (inr a, env).

Definition throw {A} (e : Err) : M A := fun env => (inl e, env).

Definition bind {A B} (m : M A) (k : A -> M B) : M B :=
  fun env =>
    match m env with
    | (inl e, env') => (inl e, env')
    | (inr a, env') => k a env'
    end.

(** [try { body } catch (err) { handler }] *)
Definition try_catch {A} (body : M A) (handler : Err -> M A) : M A :=
  fun env =>
    match body env with
    | (inl err, env') => handler err env'
    | (inr a, env') => (inr a, env')
    end.

Definition logged (c : Call) (err : option Err) (w : World S) (env : Env) : Env :=
  {| sigma := w; log := log env ++ [{| ev_call := c; ev_error := err |}] |}.

(** A call of a service: it runs on the state and is written to the log. *)
Definition invoke {A} (c : Call) (op : Op (World S) A) : M (Promise A) :=
  fun env =>
    match op (sigma env) with
    | (inl e, w) => (inl e, logged c (Some e) w env)
    | (inr p, w) => (inr p, logged c (rejection p) w env)
    end.

(** [await p] *)
Definition await {A} (p : Promise A) : M A := fun env => (outcome p, env).

End SetupService.

Declare Scope setup_scope.
Delimit Scope setup_scope with setup.
Notation "x <- m ;; k" := (bind m (fun x => k))
  (at level 61, m at next level, right associativity) : setup_scope.
Notation "m ;;; k" := (bind m (fun _ => k))
  (at level 61, right associativity) : setup_scope.
Open Scope setup_scope.

Arguments ret {S A} a.
Arguments throw {S A} e.
Arguments await {S A} p.
Arguments CSelect {S} field.
Arguments CUpdate {S} s.
Arguments CSettingsValidate {S} m.
Arguments CIsValidUsername {S} name checkAgainstWordlist.
Arguments CIsValidPassword {S} pw.
Arguments CCreateLocalUser {S} ctx mail pw name.
Arguments CSetRole {S} id role.
Arguments CConfirmEmail {S} id mail.
Arguments CListPending {S}.
Arguments CRun {S} ms.

Section Code.

Variable S : Services.

(** *** services/setup.js *)

(** [static async isAvailable()] *)
Definition isAvailable : M S unit :=
  if INSTALL_LOCK S then throw ErrInstallLock
  else
    try_catch
      (p <- invoke (CSelect "id") (SettingsService_select S "id") ;;
       await p ;;;
       throw ErrSettingsInit)
      (fun err =>
         if instanceof_ErrSettingsNotInit err then ret tt
         else throw err).

(** [static validate({ settings, user: { email, username, password } })]:
    not an [async] function, it throws [ErrMissingEmail] itself and
    otherwise returns the promise of [Promise.all]. *)
Definition validate (input : SetupInput S) : M S (Promise (list (Value S))) :=
  let settings := settings input in
  let email := email (user input) in
  let username := username (user input) in
  let password := password (user input) in
  if falsy email then throw ErrMissingEmail
  else
    let settingsModel := SettingsModel_new S settings in
    p1 <- invoke (CIsValidUsername username false)
                 (UsersService_isValidUsername S username false) ;;
    p2 <- invoke (CIsValidPassword password)
                 (UsersService_isValidPassword S password) ;;
    p3 <- invoke (CSettingsValidate settingsModel)
                 (SettingsModel_validate S settingsModel) ;;
    ret (Promise_all [p1; p2; p3]).

(** [static async setup(ctx, { settings, user: { email, password, username } })].
    Each [await f(x)] of the source is the call ([invoke]), which yields a
    promise, followed by the [await] of that promise. *)
Definition setup (ctx : Ctx S) (input : SetupInput S) : M S (SetupResult S) :=
  let settings := settings input in
  let email := email (user input) in
  let password := password (user input) in
  let username := username (user input) in
  v <- validate {| settings := settings;
                   user := {| email := email;
                              username := username;
                              password := password |} |} ;;
  await v ;;;
  l <- invoke CListPending (MigrationService_listPending S) ;;
  migrations <- await l ;;
  r <- invoke (CRun migrations) (MigrationService_run S migrations) ;;
  await r ;;;
  u <- invoke (CUpdate settings) (SettingsService_update S settings) ;;
  settings <- await u ;;
  c <- invoke (CCreateLocalUser ctx email password username)
              (UsersService_createLocalUser S ctx email password username) ;;
  user <- await c ;;
  g <- invoke (CSetRole (user_id S user) "ADMIN")
              (UsersService_setRole S (user_id S user) "ADMIN") ;;
  f <- invoke (CConfirmEmail (user_id S user) email)
              (UsersService_confirmEmail S (user_id S user) email) ;;
  await (Promise_all [g; f]) ;;;
  ret {| res_settings := settings; res_user := user |}.

End Code.

Arguments isAvailable : clear implicits.
Arguments validate {S} input.
Arguments setup {S} ctx input.

(** ** What a call came to *)

(** The result of a call once its promise has settled: a call that throws
    and a call whose promise rejects fail alike. *)
Definition settle {A} (r : Err + Promise A) : Err + A :=
  match r with
  | inl e => inl e
  | inr p => outcome p
  end.

(** The error of a call, as the log keeps it. *)
Definition failure {A} (r : Err + Promise A) : option Err :=
  match r with
  | inl e => Some e
  | inr p => rejection p
  end.

(** The position of a call in [setup]: the calls that [setup] awaits
    together (the three checks, the two updates of the account) share
    theirs. *)
Definition stage {S} (c : Call S) : nat :=
  match c with
  | CSelect _ => 0
  | CIsValidUsername _ _ | CIsValidPassword _ | CSettingsValidate _ => 1
  | CListPending => 2
  | CRun _ => 3
  | CUpdate _ => 4
  | CCreateLocalUser _ _ _ _ => 5
  | CSetRole _ _ | CConfirmEmail _ _ => 6
  end.

(** The service function a call is a call of. *)
Inductive Kind : Type :=
| KSelect | KUpdate | KSettingsValidate | KIsValidUsername | KIsValidPassword
| KCreateLocalUser | KSetRole | KConfirmEmail | KListPending | KRun.

Definition kind {S} (c : Call S) : Kind :=
  match c with
  | CSelect _ => KSelect
  | CUpdate _ => KUpdate
  | CSettingsValidate _ => KSettingsValidate
  | CIsValidUsername _ _ => KIsValidUsername
  | CIsValidPassword _ => KIsValidPassword
  | CCreateLocalUser _ _ _ _ => KCreateLocalUser
  | CSetRole _ _ => KSetRole
  | CConfirmEmail _ _ => KConfirmEmail
  | CListPending => KListPending
  | CRun _ => KRun
  end.

(** The read of the configuration record that [isAvailable] makes. *)
Definition read_configuration (S : Services) (env : Env S)
  : (Err + Promise (Settings S)) * World S :=
  SettingsService_select S "id" (sigma env).

(** The three checks of [validate]. *)
Definition username_check {S} (input : SetupInput S) : Call S :=
  CIsValidUsername (username (user input)) false.

Definition password_check {S} (input : SetupInput S) : Call S :=
  CIsValidPassword (password (user input)).

Definition settings_check {S} (input : SetupInput S) : Call S :=
  CSettingsValidate (SettingsModel_new S (settings input)).

(** The calls [validate] makes when none of them throws. *)
Definition validate_calls {S} (input : SetupInput S) : list (Call S) :=
  [username_check input; password_check input; settings_check input].

Definition Event_ok {S} (c : Call S) : Event S :=
  {| ev_call := c; ev_error := None |}.

Definition Event_failed {S} (c : Call S) (e : Err) : Event S :=
  {| ev_call := c; ev_error := Some e |}.

(** The calls of the last step of [setup] for the account [u]. *)
Definition finalize_calls {S} (u : User S) (input : SetupInput S)
  : list (Call S) :=
  [CSetRole (user_id S u) "ADMIN";
   CConfirmEmail (user_id S u) (email (user input))].

(** *** The runs of [validate] and [setup], by their calls

    [validate_outcome input r evs]: [validate], given an email, made the
    calls [evs] and came to [r].  A check that throws ends the run; the
    checks that return a promise are joined by [Promise.all]. *)
Inductive validate_outcome {S} (input : SetupInput S)
  : Err + list (Value S) -> list (Event S) -> Prop :=
| validate_username_threw e :
    validate_outcome input (inl e) [Event_failed (username_check input) e]
| validate_password_threw err1 e :
    validate_outcome input (inl e)
      [{| ev_call := username_check input; ev_error := err1 |};
       Event_failed (password_check input) e]
| validate_settings_threw err1 err2 e :
    validate_outcome input (inl e)
      [{| ev_call := username_check input; ev_error := err1 |};
       {| ev_call := password_check input; ev_error := err2 |};
       Event_failed (settings_check input) e]
| validate_rejected err1 err2 err3 e :
    In (Some e) [err1; err2; err3] ->
    validate_outcome input (inl e)
      [{| ev_call := username_check input; ev_error := err1 |};
       {| ev_call := password_check input; ev_error := err2 |};
       {| ev_call := settings_check input; ev_error := err3 |}]
| validate_fulfilled (vs : list (Value S)) :
    validate_outcome input (inr vs) (map Event_ok (validate_calls input)).

(** [ms] is a list of migrations that [listPending] gave. *)
Definition listed (S : Services) (ms : Migrations S) : Prop :=
  exists w, settle (fst (MigrationService_listPending S w)) = inr ms.

(** [setup_outcome ctx input r evs]: [setup] made the calls [evs] and came
    to [r]. *)
Inductive setup_outcome {S} (ctx : Ctx S) (input : SetupInput S)
  : Err + SetupResult S -> list (Event S) -> Prop :=
| setup_missing_email :
    falsy (email (user input)) = true ->
    setup_outcome ctx input (inl ErrMissingEmail) []
| setup_invalid e evs :
    falsy (email (user input)) = false ->
    validate_outcome input (inl e) evs ->
    setup_outcome ctx input (inl e) evs
| setup_list_failed e :
    setup_outcome ctx input (inl e)
      (map Event_ok (validate_calls input) ++ [Event_failed CListPending e])
| setup_run_failed ms e :
    listed S ms ->
    setup_outcome ctx input (inl e)
      (map Event_ok (validate_calls input)
       ++ [Event_ok CListPending; Event_failed (CRun ms) e])
| setup_update_failed ms e :
    listed S ms ->
    setup_outcome ctx input (inl e)
      (map Event_ok (validate_calls input)
       ++ [Event_ok CListPending; Event_ok (CRun ms);
           Event_failed (CUpdate (settings input)) e])
| setup_create_failed ms e :
    listed S ms ->
    setup_outcome ctx input (inl e)
      (map Event_ok (validate_calls input)
       ++ [Event_ok CListPending; Event_ok (CRun ms);
           Event_ok (CUpdate (settings input));
           Event_failed
             (CCreateLocalUser ctx (email (user input))
                (password (user input)) (username (user input))) e])
| setup_role_threw ms u e :
    listed S ms ->
    setup_outcome ctx input (inl e)
      (map Event_ok (validate_calls input)
       ++ [Event_ok CListPending; Event_ok (CRun ms);
           Event_ok (CUpdate (settings input));
           Event_ok
             (CCreateLocalUser ctx (email (user input))
                (password (user input)) (username (user input)));
           Event_failed (CSetRole (user_id S u) "ADMIN") e])
| setup_finalize_failed ms u err1 err2 e :
    listed S ms ->
    In (Some e) [err1; err2] ->
    setup_outcome ctx input (inl e)
      (map Event_ok (validate_calls input)
       ++ [Event_ok CListPending; Event_ok (CRun ms);
           Event_ok (CUpdate (settings input));
           Event_ok
             (CCreateLocalUser ctx (email (user input))
                (password (user input)) (username (user input)));
           {| ev_call := CSetRole (user_id S u) "ADMIN"; ev_error := err1 |};
           {| ev_call := CConfirmEmail (user_id S u) (email (user input));
              ev_error := err2 |}])
| setup_complete ms s u :
    listed S ms ->
    setup_outcome ctx input (inr {| res_settings := s; res_user := u |})
      (map Event_ok (validate_calls input)
       ++ [Event_ok CListPending; Event_ok (CRun ms);
           Event_ok (CUpdate (settings input));
           Event_ok
             (CCreateLocalUser ctx (email (user input))
                (password (user input)) (username (user input)))]
       ++ map Event_ok (finalize_calls u input)).

(** A call with its promise settled: what it came to, and the state it
    left. *)
Definition awaited {W A} (op : Op W A) (w : W) : (Err + A) * W :=
  (settle (fst (op w)), snd (op w)).

(** [setup_completes ctx input env res w]: from [env], every step of
    [setup] succeeds, each on the state the step before it left; the run
    returns [res] and leaves the state [w]. *)
Inductive setup_completes {S} (ctx : Ctx S) (input : SetupInput S)
  (env : Env S) (res : SetupResult S) (w : World S) : Prop :=
| setup_chain v vs env1 ms w2 x w3 w4 w5 y w6 z :
    validate input env = (inr v, env1) ->
    outcome v = inr vs ->
    awaited (MigrationService_listPending S) (sigma env1) = (inr ms, w2) ->
    awaited (MigrationService_run S ms) w2 = (inr x, w3) ->
    awaited (SettingsService_update S (settings input)) w3
    = (inr (res_settings res), w4) ->
    awaited (UsersService_createLocalUser S ctx (email (user input))
               (password (user input)) (username (user input))) w4
    = (inr (res_user res), w5) ->
    awaited (UsersService_setRole S (user_id S (res_user res)) "ADMIN") w5
    = (inr y, w6) ->
    awaited (UsersService_confirmEmail S (user_id S (res_user res))
               (email (user input))) w6
    = (inr z, w) ->
    setup_completes ctx input env res w.

(** The configuration record is there: reading it finds it. *)
Definition initialized (S : Services) (w : World S) : Prop :=
  exists cfg, settle (fst (SettingsService_select S "id" w)) = inr cfg.

(** What [setup] relies on for the configuration it wrote to be found
    later: an update that succeeds leaves a record, and the functions of
    the account store do not remove it. *)
Definition keeps_configuration (S : Services) : Prop :=
  (forall s w cfg,
     settle (fst (SettingsService_update S s w)) = inr cfg ->
     initialized S (snd (SettingsService_update S s w))) /\
  (forall ctx mail pw name w,
     initialized S w ->
     initialized S (snd (UsersService_createLocalUser S ctx mail pw name w))) /\
  (forall id role w,
     initialized S w -> initialized S (snd (UsersService_setRole S id role w))) /\
  (forall id mail w,
     initialized S w ->
     initialized S (snd (UsersService_confirmEmail S id mail w))).

(** ** An in-memory implementation of the services

    Used to run the code: a configuration store holding at most one record,
    an account store keyed by user id, and a list of pending migrations. *)
Module Mem.

Record Account : Type := {
  acc_id : string;
  acc_email : option string;
  acc_username : string;
  acc_password : string;
  acc_role : string;
  acc_confirmed : bool;
}.

Record Store : Type := {
  (** whether the database answers *)
  st_online : bool;
  st_config : option string;
  st_accounts : list Account;
  st_pending : list string;
  st_applied : list string;
}.

Definition offline (w : Store) : Store :=
  {| st_online := false; st_config := st_config w;
     st_accounts := st_accounts w;
     st_pending := st_pending w; st_applied := st_applied w |}.

Definition with_config (c : option string) (w : Store) : Store :=
  {| st_online := st_online w; st_config := c; st_accounts := st_accounts w;
     st_pending := st_pending w; st_applied := st_applied w |}.

Definition with_accounts (l : list Account) (w : Store) : Store :=
  {| st_online := st_online w; st_config := st_config w; st_accounts := l;
     st_pending := st_pending w; st_applied := st_applied w |}.

Definition with_migrations (pending applied : list string) (w : Store) : Store :=
  {| st_online := st_online w; st_config := st_config w; st_accounts := st_accounts w;
     st_pending := pending; st_applied := applied |}.

Definition fulfil {A} (t : nat) (v : A) (w : Store) : (Err + Promise A) * Store :=
  (inr (resolved t v), w).

Definition reject {A} (t : nat) (e : Err) (w : Store) : (Err + Promise A) * Store :=
  (inr (rejected t e), w).

(** Modelled from the spec: [SettingsService.select] of [./settings]; the
    read of the configuration singleton, which fails with [NotInitialized]
    when there is no record (section 4.1), and with the database's own
    error when it does not answer. *)
Definition select (field : string) : Op Store string :=
  fun w =>
    if st_online w then
      match st_config w with
      | Some s => fulfil 1 s w
      | None => reject 1 ErrSettingsNotInit w
      end
    else reject 1 (ErrOther "MongoNetworkError") w.

(** Modelled from the spec: [SettingsService.update] of [./settings];
    replaces or creates the singleton and returns the persisted settings
    (section 4.3, step 3). *)
Definition update (s : string) : Op Store string :=
  fun w =>
    if st_online w then fulfil 1 s (with_config (Some s) w)
    else reject 1 (ErrOther "MongoNetworkError") w.

(** Modelled from the spec: [SettingsModel.validate] of [../models/setting];
    the rules are out of scope (section 1): here an empty payload is
    invalid. *)
Definition settings_validate (m : string) : Op Store unit :=
  fun w =>
    if (m =? "")%string then reject 3 (ErrOther "ValidationError") w
    else fulfil 3 tt w.

(** Modelled from the spec: [UsersService.isValidUsername] of [./users];
    the rules are out of scope: here an empty name is invalid. *)
Definition isValidUsername (name : string) (checkAgainstWordlist : bool)
  : Op Store unit :=
  fun w =>
    if (name =? "")%string then reject 2 (ErrOther "ErrMissingUsername") w
    else fulfil 2 tt w.

(** Modelled from the spec: [UsersService.isValidPassword] of [./users];
    the rules are out of scope: here a password has eight characters at
    least. *)
Definition isValidPassword (pw : string) : Op Store unit :=
  fun w =>
    if (String.length pw <? 8)%nat then reject 1 (ErrOther "ErrPasswordTooShort") w
    else fulfil 1 tt w.

Definition find_account (id : string) (l : list Account) : option Account :=
  find (fun a => (acc_id a =? id)%string) l.

Definition update_account (id : string) (f : Account -> Account)
  (l : list Account) : list Account :=
  map (fun a => if (acc_id a =? id)%string then f a else a) l.

(** [UsersService.createLocalUser] for a store that hands out copies:
    creates the user record and returns a copy of it as created, an
    ordinary commenter whose email is not confirmed yet; later updates of
    the record do not show in the copy.  (This is a choice of this test
    store, not what section 3 of the spec describes; the store of
    [MemShared] below hands out the record itself.)  A name that is taken
    is refused. *)
Definition createLocalUser (ctx : unit) (mail : option string) (pw name : string)
  : Op Store Account :=
  fun w =>
    let id := ("user:" ++ name)%string in
    match find_account id (st_accounts w) with
    | Some _ => reject 1 (ErrOther "ErrUsernameTaken") w
    | None =>
        let a := {| acc_id := id; acc_email := mail; acc_username := name;
                    acc_password := pw; acc_role := "COMMENTER";
                    acc_confirmed := false |} in
        fulfil 1 a (with_accounts (st_accounts w ++ [a]) w)
    end.

(** Modelled from the spec: [UsersService.setRole] of [./users]; assigns
    the role to the stored record of that id (section 4.3, step 5). *)
Definition setRole (id role : string) : Op Store unit :=
  fun w =>
    match find_account id (st_accounts w) with
    | None => reject 1 (ErrOther "ErrNotFound") w
    | Some _ =>
        fulfil 1 tt
          (with_accounts
             (update_account id
                (fun a => {| acc_id := acc_id a; acc_email := acc_email a;
                             acc_username := acc_username a;
                             acc_password := acc_password a;
                             acc_role := role;
                             acc_confirmed := acc_confirmed a |})
                (st_accounts w)) w)
    end.

(** Modelled from the spec: [UsersService.confirmEmail] of [./users]; marks
    the email of the stored record of that id as confirmed (section 4.3,
    step 5). *)
Definition confirmEmail (id : string) (mail : option string) : Op Store unit :=
  fun w =>
    match find_account id (st_accounts w) with
    | None => reject 2 (ErrOther "ErrNotFound") w
    | Some _ =>
        fulfil 2 tt
          (with_accounts
             (update_account id
                (fun a => {| acc_id := acc_id a; acc_email := acc_email a;
                             acc_username := acc_username a;
                             acc_password := acc_password a;
                             acc_role := acc_role a;
                             acc_confirmed := true |})
                (st_accounts w)) w)
    end.

(** Modelled from the spec: [MigrationService.listPending] of
    [./migration]; the migrations not yet applied, in order. *)
Definition listPending : Op Store (list string) :=
  fun w => fulfil 1 (st_pending w) w.

(** Applies [ms] in order after [applied]; stops at a migration that fails
    (the one named ["broken"]) and keeps what was applied before it. *)
Fixpoint apply_migrations (ms applied : list string)
  : option Err * list string * list string :=
  match ms with
  | [] => (None, [], applied)
  | m :: rest =>
      if (m =? "broken")%string
      then (Some (ErrOther "ErrMigrationFailed"), ms, applied)
      else apply_migrations rest (applied ++ [m])
  end.

(** Modelled from the spec: [MigrationService.run] of [./migration];
    applies the given migrations in the given order, and what was applied
    before a failure is not rolled back (section 4.3, step 2). *)
Definition run (ms : list string) : Op Store unit :=
  fun w =>
    match apply_migrations ms (st_applied w) with
    | (Some e, pending, applied) => reject 1 e (with_migrations pending applied w)
    | (None, pending, applied) => fulfil 1 tt (with_migrations pending applied w)
    end.

(** The application with [INSTALL_LOCK] set to [lock]. *)
Definition services (lock : bool) : Services :=
  {| World := Store;
     Ctx := unit;
     Settings := string;
     SettingsModel := string;
     Migrations := list string;
     User := Account;
     Value := unit;
     user_id := acc_id;
     INSTALL_LOCK := lock;
     SettingsService_select := select;
     SettingsService_update := update;
     SettingsModel_new := fun s => s;
     SettingsModel_validate := settings_validate;
     UsersService_isValidUsername := isValidUsername;
     UsersService_isValidPassword := isValidPassword;
     UsersService_createLocalUser := createLocalUser;
     UsersService_setRole := setRole;
     UsersService_confirmEmail := confirmEmail;
     MigrationService_listPending := listPending;
     MigrationService_run := run |}.

(** A fresh deployment: no configuration, no account, two migrations to
    apply. *)
Definition fresh : Store :=
  {| st_online := true; st_config := None; st_accounts := [];
     st_pending := ["001-indexes"; "002-roles"]; st_applied := [] |}.

Definition start (lock : bool) (w : Store) : Env (services lock) :=
  {| sigma := (w : World (services lock)); log := [] |}.

Definition input (lock : bool) (s : string) (mail : option string)
  (name pw : string) : SetupInput (services lock) :=
  {| settings := (s : Settings (services lock));
     user := {| email := mail; username := name; password := pw |} |}.

(** The input of the scenario of section 8. *)
Definition admin_input (lock : bool) : SetupInput (services lock) :=
  input lock "S" (Some "a@b.com") "admin" "Str0ngPW!".

(** The account [createLocalUser] returns for the input of the scenario. *)
Definition created_admin : Account :=
  {| acc_id := "user:admin"; acc_email := Some "a@b.com";
     acc_username := "admin"; acc_password := "Str0ngPW!";
     acc_role := "COMMENTER"; acc_confirmed := false |}.

(** The same account once [setRole] and [confirmEmail] have updated it. *)
Definition stored_admin : Account :=
  {| acc_id := "user:admin"; acc_email := Some "a@b.com";
     acc_username := "admin"; acc_password := "Str0ngPW!";
     acc_role := "ADMIN"; acc_confirmed := true |}.

(** A deployment where the name [admin] is taken already. *)
Definition taken : Store :=
  with_accounts
    [{| acc_id := "user:admin"; acc_email := Some "x@y.org";
        acc_username := "admin"; acc_password := "0ldPassw0rd";
        acc_role := "COMMENTER"; acc_confirmed := true |}] fresh.

(** A deployment whose second migration fails. *)
Definition broken : Store :=
  with_migrations ["001-indexes"; "broken"; "003-cleanup"] [] fresh.

Definition result (lock : bool) (s : string) (u : Account)
  : SetupResult (services lock) :=
  {| res_settings := (s : Settings (services lock));
     res_user := (u : User (services lock)) |}.

(** [setup] and [isAvailable] of the application, from a store, with the
    log left out. *)
Definition run_setup (lock : bool) (i : SetupInput (services lock)) (w : Store)
  : (Err + SetupResult (services lock)) * Store :=
  let r := setup (S := services lock) tt i (start lock w) in
  (fst r, sigma (snd r)).

Definition run_isAvailable (lock : bool) (w : Store) : Err + unit :=
  fst (isAvailable (services lock) (start lock w)).

End Mem.

(** ** The in-memory application with a role service that refuses

    The services of [Mem], except that [setRole] rejects every request (the
    account store is as before: the record is found, and left as it is). *)
Module MemDenied.

Definition setRole (id role : string) : Op Mem.Store unit :=
  fun w => Mem.reject 1 (ErrOther "ErrNotAuthorized") w.

Definition services : Services :=
  {| World := Mem.Store;
     Ctx := unit;
     Settings := string;
     SettingsModel := string;
     Migrations := list string;
     User := Mem.Account;
     Value := unit;
     user_id := Mem.acc_id;
     INSTALL_LOCK := false;
     SettingsService_select := Mem.select;
     SettingsService_update := Mem.update;
     SettingsModel_new := fun s => s;
     SettingsModel_validate := Mem.settings_validate;
     UsersService_isValidUsername := Mem.isValidUsername;
     UsersService_isValidPassword := Mem.isValidPassword;
     UsersService_createLocalUser := Mem.createLocalUser;
     UsersService_setRole := setRole;
     UsersService_confirmEmail := Mem.confirmEmail;
     MigrationService_listPending := Mem.listPending;
     MigrationService_run := Mem.run |}.

Definition start (w : Mem.Store) : Env services :=
  {| sigma := (w : World services); log := [] |}.

Definition admin_input : SetupInput services :=
  {| settings := ("S" : Settings services);
     user := {| email := Some "a@b.com"; username := "admin";
                password := "Str0ngPW!" |} |}.

End MemDenied.

(** ** Reading an account through the value [createLocalUser] returned *)

(** [user.role] and the confirmation of the email of [user], read in a
    given state of the application. *)
Record AccountView (S : Services) : Type := {
  role_of : World S -> User S -> option string;
  confirmed_of : World S -> User S -> bool;
}.

(** Modelled from the spec: the account store of [./users] (AccountStore),
    which is not in the sources.  Section 3: the account created by
    [createLocalUser] is "subsequently mutated twice in the same operation:
    role elevated to administrator, email marked confirmed"; section 6: the
    [user] returned is the "created account with ADMIN role and confirmed
    email".  So the value [createLocalUser] returns denotes the account of
    the store: after [setRole(user.id, role)] has succeeded, [user] has
    that role; after [confirmEmail(user.id, email)] has succeeded, its
    email is confirmed; and neither call undoes what the other did. *)
Definition updates_in_place (S : Services) (V : AccountView S) : Prop :=
  (forall u role w y w',
     awaited (UsersService_setRole S (user_id S u) role) w = (inr y, w') ->
     role_of V w' u = Some role) /\
  (forall u mail w z w',
     awaited (UsersService_confirmEmail S (user_id S u) mail) w = (inr z, w') ->
     confirmed_of V w' u = true) /\
  (forall u id mail w,
     role_of V (snd (UsersService_confirmEmail S id mail w)) u = role_of V w u) /\
  (forall u id role w,
     confirmed_of V (snd (UsersService_setRole S id role w)) u
     = confirmed_of V w u).

(** ** The in-memory application with accounts handed out by reference

    The stores of [Mem]; [createLocalUser] returns a handle on the record
    it created, and the fields of the account are read through it in the
    store. *)
Module MemShared.

(** A reference to the account of that id. *)
Record Handle : Type := { h_id : string }.

(** Modelled from the spec: [UsersService.createLocalUser] of [./users];
    creates the user record and returns the created account itself
    (sections 3 and 6), here a handle on the record in the store. *)
Definition createLocalUser (ctx : unit) (mail : option string) (pw name : string)
  : Op Mem.Store Handle :=
  fun w =>
    match Mem.createLocalUser ctx mail pw name w with
    | (inl e, w') => (inl e, w')
    | (inr p, w') =>
        (inr {| settled_at := settled_at p;
                outcome := match outcome p with
                           | inl e => inl e
                           | inr a => inr {| h_id := Mem.acc_id a |}
                           end |}, w')
    end.

Definition services : Services :=
  {| World := Mem.Store;
     Ctx := unit;
     Settings := string;
     SettingsModel := string;
     Migrations := list string;
     User := Handle;
     Value := unit;
     user_id := h_id;
     INSTALL_LOCK := false;
     SettingsService_select := Mem.select;
     SettingsService_update := Mem.update;
     SettingsModel_new := fun s => s;
     SettingsModel_validate := Mem.settings_validate;
     UsersService_isValidUsername := Mem.isValidUsername;
     UsersService_isValidPassword := Mem.isValidPassword;
     UsersService_createLocalUser := createLocalUser;
     UsersService_setRole := Mem.setRole;
     UsersService_confirmEmail := Mem.confirmEmail;
     MigrationService_listPending := Mem.listPending;
     MigrationService_run := Mem.run |}.

(** [user.role] and the confirmation, read in the store. *)
Definition view : AccountView services :=
  {| role_of := fun (w : World services) (u : User services) =>
       option_map Mem.acc_role (Mem.find_account (h_id u) (Mem.st_accounts w));
     confirmed_of := fun (w : World services) (u : User services) =>
       match Mem.find_account (h_id u) (Mem.st_accounts w) with
       | Some a => Mem.acc_confirmed a
       | None => false
       end |}.

Definition start (w : Mem.Store) : Env services :=
  {| sigma := (w : World services); log := [] |}.

Definition admin_input : SetupInput services :=
  {| settings := ("S" : Settings services);
     user := {| email := Some "a@b.com"; username := "admin";
                password := "Str0ngPW!" |} |}.

End MemShared.

(** * Properties *)

(** ** [Promise.all] *)

Section PromiseAll.

Variable A : Type.

Implicit Types (p : Promise A) (ps : list (Promise A)).

Lemma first_rejection_none ps :
  first_rejection ps = None <-> Forall (fun p => rejection p = None) ps.
Proof.
  induction ps as [|p ps IH]; simpl.
  - split; auto.
  - unfold rejection at 1. destruct (outcome p) as [e|v] eqn:Ho.
    + split.
      * destruct (first_rejection ps) as [[t e']|]; [|discriminate].
        destruct (settled_at p <=? t)%nat; discriminate.
      * intros H. inversion H as [|? ? Hp _]; subst.
        unfold rejection in Hp. rewrite Ho in Hp. discriminate.
    + rewrite IH. split.
      * intros H. constructor; [unfold rejection; now rewrite Ho | exact H].
      * intros H. now inversion H.
Qed.

(** A rejection of [Promise.all] is the rejection of one of its promises,
    and no promise of the array rejected before it. *)
Lemma first_rejection_some ps t e :
  first_rejection ps = Some (t, e) ->
  (exists p, In p ps /\ outcome p = inl e /\ settled_at p = t) /\
  (forall q e', In q ps -> outcome q = inl e' -> t <= settled_at q).
Proof.
  revert t e. induction ps as [|p ps IH]; simpl; intros t e H; [discriminate|].
  destruct (outcome p) as [e0|v] eqn:Ho.
  - destruct (first_rejection ps) as [[t1 e1]|] eqn:Hr.
    + destruct (IH _ _ eq_refl) as [(q & Hq & Hoq & Htq) Hmin].
      destruct (Nat.leb_spec (settled_at p) t1) as [Hle|Hlt];
        inversion H; subst; clear H.
      * split; [exists p; auto|].
        intros q' e' [->|Hin] Hq'; [lia|].
        specialize (Hmin _ _ Hin Hq'). lia.
      * split; [exists q; auto|].
        intros q' e' [->|Hin] Hq'; [lia|]. eauto.
    + inversion H; subst; clear H. split; [exists p; auto|].
      intros q' e' [->|Hin] Hq'; [lia|].
      apply first_rejection_none in Hr. rewrite Forall_forall in Hr.
      specialize (Hr _ Hin). unfold rejection in Hr. rewrite Hq' in Hr.
      discriminate.
  - destruct (IH _ _ H) as [(q & Hq & Hoq & Htq) Hmin]. split.
    + exists q; auto.
    + intros q' e' [->|Hin] Hq'; [congruence | eauto].
Qed.

Lemma Promise_all_rejected ps e :
  outcome (Promise_all ps) = inl e ->
  exists p, In p ps /\ rejection p = Some e.
Proof.
  unfold Promise_all. destruct (first_rejection ps) as [[t e']|] eqn:Hr.
  - simpl. intros [= ->]. apply first_rejection_some in Hr.
    destruct Hr as [(p & Hin & Ho & _) _]. exists p. split; [exact Hin|].
    unfold rejection. now rewrite Ho.
  - discriminate.
Qed.

Lemma Promise_all_fulfilled ps vs :
  outcome (Promise_all ps) = inr vs ->
  Forall (fun p => rejection p = None) ps.
Proof.
  unfold Promise_all. destruct (first_rejection ps) as [[t e']|] eqn:Hr.
  - discriminate.
  - intros _. now apply first_rejection_none.
Qed.

Lemma Promise_all_no_mask ps p :
  In p ps -> rejection p <> None -> exists e, outcome (Promise_all ps) = inl e.
Proof.
  intros Hin Hp. destruct (outcome (Promise_all ps)) as [e|vs] eqn:Ho.
  - now exists e.
  - apply Promise_all_fulfilled in Ho. rewrite Forall_forall in Ho.
    now specialize (Ho _ Hin).
Qed.

End PromiseAll.

(** ** Calls and logs *)

Section Basics.

Variable S : Services.

Lemma invoke_eq A (c : Call S) (op : Op (World S) A) (env : Env S) :
  invoke c op env =
  (fst (op (sigma env)),
   logged c (failure (fst (op (sigma env)))) (snd (op (sigma env))) env).
Proof.
  unfold invoke. destruct (op (sigma env)) as [[e|p] w]; reflexivity.
Qed.

Lemma rejection_settle A (p : Promise A) :
  rejection p = None <-> exists v, outcome p = inr v.
Proof.
  unfold rejection. destruct (outcome p) as [e|v]; split.
  - discriminate.
  - intros [v [=]].
  - intros _. now exists v.
  - reflexivity.
Qed.

End Basics.

(** ** [isAvailable] *)

Section Availability.

Variable S : Services.

Implicit Types env : Env S.

(** Past the lock, [isAvailable] is decided by the read alone, and leaves
    the state as the read left it. *)
Lemma isAvailable_unlocked env :
  INSTALL_LOCK S = false ->
  isAvailable S env =
  (match settle (fst (read_configuration env)) with
   | inr _ => inl ErrSettingsInit
   | inl e => if instanceof_ErrSettingsNotInit e then inr tt else inl e
   end,
   logged (CSelect "id") (failure (fst (read_configuration env))) (snd (read_configuration env)) env).
Proof.
  intros Hlock. unfold isAvailable, read_configuration. rewrite Hlock.
  unfold try_catch, bind. rewrite invoke_eq.
  destruct (SettingsService_select S "id" (sigma env)) as [[e|p] w]; simpl.
  - destruct (instanceof_ErrSettingsNotInit e); reflexivity.
  - unfold await, rejection. destruct (outcome p) as [e|cfg]; simpl.
    + destruct (instanceof_ErrSettingsNotInit e); reflexivity.
    + reflexivity.
Qed.

(** C4: [isAvailable] fails with [ErrInstallLock] (Locked) when the lock is
    set, without reading anything; otherwise it reads the configuration
    record, fails with [ErrSettingsInit] (AlreadyInitialized) if the read
    finds a record, succeeds if the read fails with [ErrSettingsNotInit]
    (NotInitialized), and fails with the read's own error in every other
    case. *)
Theorem isAvailable_decision env :
  (INSTALL_LOCK S = true ->
   isAvailable S env = (inl ErrInstallLock, env)) /\
  (INSTALL_LOCK S = false ->
   (forall cfg, settle (fst (read_configuration env)) = inr cfg ->
                fst (isAvailable S env) = inl ErrSettingsInit) /\
   (settle (fst (read_configuration env)) = inl ErrSettingsNotInit ->
    fst (isAvailable S env) = inr tt) /\
   (forall e, settle (fst (read_configuration env)) = inl e -> e <> ErrSettingsNotInit ->
              fst (isAvailable S env) = inl e)).
Proof.
  split.
  - intros Hlock. unfold isAvailable. now rewrite Hlock.
  - intros Hlock. rewrite (isAvailable_unlocked env Hlock). simpl.
    repeat split.
    + intros cfg ->. reflexivity.
    + intros ->. reflexivity.
    + intros e -> Hne. destruct e; try reflexivity. now elim Hne.
Qed.

(** C10: [isAvailable] calls nothing but [SettingsService.select('id')], and
    that at most once: no update of the configuration, no migration, no
    call on the accounts.  So, the read being a read (it returns the state
    it was given), a call of [isAvailable] leaves the state as it found it,
    whatever it answers and however often it is made. *)
Theorem isAvailable_read_only env :
  (exists evs,
     log (snd (isAvailable S env)) = log env ++ evs /\
     (evs = [] \/
      exists err, evs = [{| ev_call := CSelect "id"; ev_error := err |}])) /\
  ((forall field w, snd (SettingsService_select S field w) = w) ->
   forall n,
     sigma (Nat.iter n (fun env' => snd (isAvailable S env')) env) = sigma env).
Proof.
  split.
  - destruct (INSTALL_LOCK S) eqn:Hlock.
    + exists []. unfold isAvailable. rewrite Hlock. simpl.
      rewrite app_nil_r. auto.
    + rewrite (isAvailable_unlocked env Hlock). simpl.
      eexists. split; [reflexivity|]. right. eauto.
  - intros Hread n. induction n as [|n IH]; [reflexivity|].
    simpl. set (env' := Nat.iter n _ env) in *.
    destruct (INSTALL_LOCK S) eqn:Hlock.
    + unfold isAvailable. rewrite Hlock. exact IH.
    + rewrite (isAvailable_unlocked env' Hlock). simpl.
      unfold read_configuration. now rewrite Hread.
Qed.

End Availability.

(** ** [validate] *)

Section Validation.

Variable S : Services.

Implicit Types (env : Env S) (input : SetupInput S).

(** [setup] hands [validate] a copy of its input. *)
Lemma input_copy input :
  {| settings := settings input;
     user := {| email := email (user input);
                username := username (user input);
                password := password (user input) |} |} = input.
Proof. destruct input as [s [e u p]]. reflexivity. Qed.

(** C5: when [user.email] is absent or empty, [validate] throws
    [ErrMissingEmail] and so does [setup], and neither has called a service:
    the state and the log are as they were (no username, password or
    settings check, no migration listed or run, no configuration written,
    no account created). *)
Theorem missing_email_fails_first (ctx : Ctx S) input env :
  falsy (email (user input)) = true ->
  validate input env = (inl ErrMissingEmail, env) /\
  setup ctx input env = (inl ErrMissingEmail, env).
Proof.
  intros Hmail. assert (Hv : validate input env = (inl ErrMissingEmail, env)).
  { unfold validate. now rewrite Hmail. }
  split; [exact Hv|].
  unfold setup. rewrite input_copy. unfold bind at 1. now rewrite Hv.
Qed.

(** C8: with an email, [validate] succeeds exactly when its three checks
    (username, password, settings) were all made and all succeeded; an
    error of [validate] is the error of one of the checks made, and a
    check that failed always makes [validate] fail. *)
Theorem validate_fan_out input env :
  falsy (email (user input)) = false ->
  exists evs,
    log (snd (validate input env)) = log env ++ evs /\
    (exists n, map (@ev_call S) evs = firstn n (validate_calls input)) /\
    ((exists vs, settle (fst (validate input env)) = inr vs) <->
     length evs = 3 /\ Forall (fun ev => ev_error ev = None) evs) /\
    (forall e, settle (fst (validate input env)) = inl e ->
               exists ev, In ev evs /\ ev_error ev = Some e) /\
    (forall ev, In ev evs -> ev_error ev <> None ->
                exists e, settle (fst (validate input env)) = inl e).
Proof.
  intros Hmail. unfold validate. rewrite Hmail.
  unfold bind. rewrite invoke_eq.
  destruct (UsersService_isValidUsername S _ _ (sigma env)) as [[e1|p1] w1];
    simpl.
  { eexists. split; [reflexivity|]. split; [now exists 1|].
    split; [|split].
    - split; [intros [vs [=]] | intros [[=] _]].
    - intros e [= ->]. eexists. split; [now left | reflexivity].
    - intros _ _ _. eauto. }
  rewrite invoke_eq. simpl.
  destruct (UsersService_isValidPassword S _ w1) as [[e2|p2] w2]; simpl.
  { rewrite <- app_assoc. simpl. eexists. split; [reflexivity|].
    split; [now exists 2|]. split; [|split].
    - split; [intros [vs [=]] | intros [[=] _]].
    - intros e [= ->]. eexists. split; [right; now left | reflexivity].
    - intros _ _ _. eauto. }
  rewrite invoke_eq. simpl.
  destruct (SettingsModel_validate S _ w2) as [[e3|p3] w3]; simpl.
  { rewrite <- !app_assoc. simpl. eexists. split; [reflexivity|].
    split; [now exists 3|]. split; [|split].
    - split; [intros [vs [=]] |].
      intros [_ H]. inversion H as [|? ? _ H1]; subst.
      inversion H1 as [|? ? _ H2]; subst.
      inversion H2 as [|? ? H3 _]; subst. discriminate.
    - intros e [= ->]. eexists. split; [right; right; now left | reflexivity].
    - intros _ _ _. eauto. }
  rewrite <- !app_assoc. simpl. eexists. split; [reflexivity|].
  split; [now exists 3|]. split; [|split].
  - split.
    + intros [vs Hvs]. split; [reflexivity|].
      apply Promise_all_fulfilled in Hvs.
      rewrite Forall_forall in Hvs. repeat constructor; simpl;
        apply Hvs; simpl; auto.
    + intros [_ H].
      destruct (outcome (Promise_all [p1; p2; p3])) as [e|vs] eqn:Ho;
        [|now exists vs].
      apply Promise_all_rejected in Ho. destruct Ho as (p & Hin & Hp).
      inversion H as [|? ? H1 H']; subst.
      inversion H' as [|? ? H2 H'']; subst.
      inversion H'' as [|? ? H3 _]; subst. simpl in *.
      destruct Hin as [<-|[<-|[<-|[]]]]; congruence.
  - intros e Ho. apply Promise_all_rejected in Ho.
    destruct Ho as (p & Hin & Hp).
    destruct Hin as [<-|[<-|[<-|[]]]];
      match type of Hp with
      | rejection ?q = _ =>
          refine (ex_intro _ {| ev_call := _; ev_error := rejection q |} _)
      end; (split; [simpl; eauto | exact Hp]).
  - intros ev Hin Hev.
    assert (Hp : exists p, In p [p1; p2; p3] /\ rejection p <> None).
    { destruct Hin as [<-|[<-|[<-|[]]]]; simpl in Hev; eexists;
        (split; [|exact Hev]); simpl; auto. }
    destruct Hp as (p & Hp & Hrej).
    eapply Promise_all_no_mask; eassumption.
Qed.

End Validation.

(** ** [setup] *)

Section Orchestration.

Variable S : Services.

Implicit Types (env : Env S) (input : SetupInput S) (ctx : Ctx S).

Lemma bind_eq A B (m : M S A) (k : A -> M S B) env :
  bind m k env =
  match m env with
  | (inl e, env') => (inl e, env')
  | (inr a, env') => k a env'
  end.
Proof. reflexivity. Qed.

Lemma await_eq A (p : Promise A) env : await p env = (outcome p, env).
Proof. reflexivity. Qed.

(** A call that is awaited at once. *)
Lemma bind_call A B (c : Call S) (op : Op (World S) A) (k : A -> M S B) env :
  bind (invoke c op) (fun p => bind (await p) k) env =
  match settle (fst (op (sigma env))) with
  | inl e => (inl e, logged c (Some e) (snd (op (sigma env))) env)
  | inr a => k a (logged c None (snd (op (sigma env))) env)
  end.
Proof.
  rewrite bind_eq, invoke_eq.
  destruct (op (sigma env)) as [[e|p] w]; simpl; [reflexivity|].
  rewrite bind_eq. unfold await, rejection.
  destruct (outcome p); reflexivity.
Qed.

Lemma rejection_in A (p : Promise A) (ps : list (Promise A)) e :
  In p ps -> rejection p = Some e -> In (Some e) (map (@rejection A) ps).
Proof. intros Hin <-. now apply in_map. Qed.

(** The calls of a run of [validate]. *)
Lemma validate_run input env :
  falsy (email (user input)) = false ->
  exists evs,
    log (snd (validate input env)) = log env ++ evs /\
    validate_outcome input (settle (fst (validate input env))) evs.
Proof.
  intros Hmail. unfold validate. rewrite Hmail.
  unfold bind. rewrite invoke_eq.
  destruct (UsersService_isValidUsername S _ _ (sigma env)) as [[e1|p1] w1];
    simpl.
  { eexists. split; [reflexivity | constructor]. }
  rewrite invoke_eq. simpl.
  destruct (UsersService_isValidPassword S _ w1) as [[e2|p2] w2]; simpl.
  { rewrite <- app_assoc. eexists. split; [reflexivity | constructor]. }
  rewrite invoke_eq. simpl.
  destruct (SettingsModel_validate S _ w2) as [[e3|p3] w3]; simpl;
    rewrite <- !app_assoc; simpl.
  { eexists. split; [reflexivity | constructor]. }
  eexists. split; [reflexivity|].
  destruct (outcome (Promise_all [p1; p2; p3])) as [e|vs] eqn:Ho.
  - apply Promise_all_rejected in Ho. destruct Ho as (p & Hin & Hp).
    constructor. exact (rejection_in _ _ Hin Hp).
  - apply Promise_all_fulfilled in Ho.
    inversion Ho as [|? ? H1 Ho']; subst.
    inversion Ho' as [|? ? H2 Ho'']; subst.
    inversion Ho'' as [|? ? H3 _]; subst.
    rewrite H1, H2, H3. constructor.
Qed.

(** The calls of a run of [setup]. *)
Lemma setup_events ctx input env :
  exists evs,
    log (snd (setup ctx input env)) = log env ++ evs /\
    setup_outcome ctx input (fst (setup ctx input env)) evs.
Proof.
  unfold setup. rewrite input_copy, bind_eq.
  destruct (falsy (email (user input))) eqn:Hmail.
  { unfold validate. rewrite Hmail. simpl.
    exists []. rewrite app_nil_r. split; [reflexivity | now constructor]. }
  destruct (validate_run input env Hmail) as (evs & Hlog & Hout).
  destruct (validate input env) as [[e|v] env1]; simpl in Hlog, Hout.
  { exists evs. split; [exact Hlog | now apply setup_invalid]. }
  rewrite bind_eq, await_eq.
  destruct (outcome v) as [e|vs]; simpl.
  { exists evs. split; [exact Hlog | now apply setup_invalid]. }
  inversion Hout; subst. clear Hout.
  rewrite bind_call.
  destruct (settle (fst (MigrationService_listPending S _))) as [e|ms]
    eqn:Hms; simpl.
  { rewrite Hlog, <- app_assoc. eexists.
    split; [reflexivity | apply setup_list_failed]. }
  assert (Hl : listed S ms) by (eexists; exact Hms).
  rewrite bind_call.
  destruct (settle (fst (MigrationService_run S ms _))) as [e|x]; simpl.
  { rewrite Hlog, <- !app_assoc. eexists.
    split; [reflexivity | now apply setup_run_failed]. }
  rewrite bind_call.
  destruct (settle (fst (SettingsService_update S _ _))) as [e|s]; simpl.
  { rewrite Hlog, <- !app_assoc. eexists.
    split; [reflexivity | now apply setup_update_failed]. }
  rewrite bind_call.
  destruct (settle (fst (UsersService_createLocalUser S _ _ _ _ _)))
    as [e|u]; simpl.
  { rewrite Hlog, <- !app_assoc. eexists.
    split; [reflexivity | now apply setup_create_failed]. }
  rewrite bind_eq, invoke_eq. simpl.
  destruct (UsersService_setRole S _ _ _) as [[e|g] w5]; simpl.
  { rewrite Hlog, <- !app_assoc. eexists.
    split; [reflexivity | now apply setup_role_threw]. }
  rewrite bind_eq, invoke_eq. simpl.
  destruct (UsersService_confirmEmail S _ _ _) as [[e|f] w6]; simpl.
  { rewrite Hlog, <- !app_assoc. eexists. split; [reflexivity|].
    apply setup_finalize_failed; [exact Hl | simpl; auto]. }
  rewrite bind_eq, await_eq. unfold ret.
  destruct (outcome (Promise_all [g; f])) as [e|vs'] eqn:Ho; simpl.
  - rewrite Hlog, <- !app_assoc. eexists. split; [reflexivity|].
    apply Promise_all_rejected in Ho. destruct Ho as (p & Hin & Hp).
    apply setup_finalize_failed; [exact Hl|].
    exact (rejection_in _ _ Hin Hp).
  - apply Promise_all_fulfilled in Ho.
    inversion Ho as [|? ? H1 Ho']; subst.
    inversion Ho' as [|? ? H2 _]; subst.
    rewrite H1, H2, Hlog, <- !app_assoc. eexists.
    split; [reflexivity | now apply setup_complete].
Qed.

(** A run of [setup] that returns went through every step. *)
Lemma setup_success ctx input env res env' :
  setup ctx input env = (inr res, env') ->
  setup_completes ctx input env res (sigma env').
Proof.
  unfold setup. rewrite input_copy, bind_eq.
  destruct (validate input env) as [[e|v] env1] eqn:Hv; [discriminate|].
  rewrite bind_eq, await_eq.
  destruct (outcome v) as [e|vs] eqn:Hvs; [discriminate|].
  rewrite bind_call.
  destruct (settle (fst (MigrationService_listPending S _))) as [e|ms] eqn:H1;
    [discriminate|].
  rewrite bind_call. cbn [sigma logged].
  destruct (settle (fst (MigrationService_run S ms _))) as [e|x] eqn:H2;
    [discriminate|].
  rewrite bind_call. cbn [sigma logged].
  destruct (settle (fst (SettingsService_update S _ _))) as [e|s] eqn:H3;
    [discriminate|].
  rewrite bind_call. cbn [sigma logged].
  destruct (settle (fst (UsersService_createLocalUser S _ _ _ _ _)))
    as [e|u] eqn:H4; [discriminate|].
  rewrite bind_eq, invoke_eq. cbn [sigma logged].
  destruct (UsersService_setRole S _ _ _) as [[e|g] w6] eqn:H5;
    [discriminate|].
  cbn [fst snd failure]. rewrite bind_eq, invoke_eq. cbn [sigma logged].
  destruct (UsersService_confirmEmail S _ _ _) as [[e|f] w7] eqn:H6;
    [discriminate|].
  cbn [fst snd failure]. rewrite bind_eq, await_eq.
  destruct (outcome (Promise_all [g; f])) as [e|vs'] eqn:Ho; [discriminate|].
  unfold ret. intros [= <- <-]. cbn [sigma logged res_settings res_user].
  apply Promise_all_fulfilled in Ho.
  inversion Ho as [|? ? Hg Ho']; subst.
  inversion Ho' as [|? ? Hf _]; subst.
  apply rejection_settle in Hg, Hf. destruct Hg as [y Hg], Hf as [z Hf].
  eapply setup_chain with (y := y) (z := z); try eassumption;
    unfold awaited; cbn [res_settings res_user];
    rewrite ?H1, ?H2, ?H3, ?H4, ?H5, ?H6; cbn [fst snd settle];
    rewrite ?Hg, ?Hf; reflexivity.
Qed.

(** Splits a list equation [l = pre ++ ev :: post], [l] given by its
    elements, into the cases of where [ev] is. *)
Ltac split_list H :=
  repeat
    match type of H with
    | [] = ?pre ++ _ :: _ => destruct pre; discriminate H
    | _ :: _ = ?pre ++ _ :: _ =>
        destruct pre as [|? pre]; simpl in H;
        [ injection H as ? ?; subst | injection H as ? H; subst ]
    end.

(** The run of [setup], case by case, with the calls written out. *)
Ltac setup_cases ctx input env evs Hlog :=
  let Hout := fresh "Hout" in
  destruct (setup_events ctx input env) as (evs & Hlog & Hout);
  exists evs; split; [exact Hlog|];
  destruct (fst (setup ctx input env));
  inversion Hout as [ | ? ? ? Hval | | | | | | | ]; subst; clear Hout;
  try (inversion Hval; subst; clear Hval);
  cbn [map validate_calls finalize_calls app Event_ok Event_failed].

(** C6: in every run of [setup], a call of [createLocalUser] comes after a
    call of [SettingsService.update] that succeeded, and a call of
    [SettingsService.update] after calls of [MigrationService.listPending]
    and [MigrationService.run] that succeeded, the latter on the list the
    former gave; so when a call of the
    migration service fails, [setup] calls neither
    [SettingsService.update] nor any function of the account store. *)
Theorem setup_precedence ctx input env :
  exists evs,
    log (snd (setup ctx input env)) = log env ++ evs /\
    (forall pre ev post,
       evs = pre ++ ev :: post ->
       kind (ev_call ev) = KCreateLocalUser ->
       In (Event_ok (CUpdate (settings input))) pre) /\
    (forall pre ev post,
       evs = pre ++ ev :: post ->
       kind (ev_call ev) = KUpdate ->
       exists ms,
         listed S ms /\
         In (Event_ok CListPending) pre /\ In (Event_ok (CRun ms)) pre) /\
    (forall ev,
       In ev evs ->
       kind (ev_call ev) = KListPending \/ kind (ev_call ev) = KRun ->
       ev_error ev <> None ->
       forall ev',
         In ev' evs ->
         ~ In (kind (ev_call ev'))
              [KUpdate; KCreateLocalUser; KSetRole; KConfirmEmail]).
Proof.
  setup_cases ctx input env evs Hlog.
  all: split; [|split];
    [ intros pre ev post Heq Hk; split_list Heq;
      simpl in Hk; try discriminate Hk; simpl; eauto 12
    | intros pre ev post Heq Hk; split_list Heq;
      simpl in Hk; try discriminate Hk;
      (eexists; split; [eassumption | simpl; auto 12])
    | intros ev Hin Hk Herr ev' Hin'; simpl in Hin, Hin';
      repeat (destruct Hin as [<-|Hin]; [|]); try contradiction;
      simpl in Hk, Herr; try (destruct Hk; discriminate);
      try (now elim Herr);
      repeat (destruct Hin' as [<-|Hin']; [|]); try contradiction;
      simpl; intuition discriminate ].
Qed.

(** C9: in every run of [setup], no service function is called twice (no
    retry); once a call has failed, [setup] fails and makes no call of a
    later step (the only calls after a failed one are those awaited
    together with it); and the error of [setup] is the very error of a
    call that failed, or [ErrMissingEmail] raised before any call.  A
    failure of [listPending], [run], [update] or [createLocalUser] is the
    error of [setup]. *)
Theorem setup_fails_fast ctx input env :
  exists evs,
    log (snd (setup ctx input env)) = log env ++ evs /\
    NoDup (map (fun ev => kind (ev_call ev)) evs) /\
    (forall pre ev post,
       evs = pre ++ ev :: post ->
       ev_error ev <> None ->
       (exists e, fst (setup ctx input env) = inl e) /\
       Forall (fun ev' => stage (ev_call ev') = stage (ev_call ev)) post) /\
    (forall e,
       fst (setup ctx input env) = inl e ->
       (e = ErrMissingEmail /\ evs = []) \/
       (exists ev, In ev evs /\ ev_error ev = Some e)) /\
    (forall ev e,
       In ev evs ->
       ev_error ev = Some e ->
       2 <= stage (ev_call ev) <= 5 ->
       fst (setup ctx input env) = inl e).
Proof.
  setup_cases ctx input env evs Hlog.
  all: split; [|split; [|split]];
    [ repeat constructor; simpl; intuition discriminate
    | intros pre ev post Heq Herr; split_list Heq;
      simpl in Herr; try (now elim Herr);
      (split; [eauto | repeat constructor])
    | intros e' [= <-]; simpl;
      repeat match goal with
             | H : In (Some _) _ |- _ => simpl in H; decompose [or] H; clear H
             | H : Some _ = _ |- _ => symmetry in H; subst
             | H : False |- _ => destruct H
             end;
      subst; eauto 20
    | intros ev e' Hin Herr Hst; simpl in Hin;
      repeat (destruct Hin as [<-|Hin]; [|]); try contradiction;
      simpl in Herr, Hst; try discriminate Herr; try lia;
      congruence ].
Qed.

(** C1 (amended): [setup] returns only if [validate] succeeds on the same
    input, from the same state.  [setup] does not call [isAvailable]: it
    makes no read of the configuration record (and the lock is read by
    [isAvailable] alone), so that check is left to its callers. *)
Theorem setup_requires_valid_input ctx input env res env' :
  setup ctx input env = (inr res, env') ->
  (exists vs, settle (fst (validate input env)) = inr vs) /\
  (exists evs,
     log env' = log env ++ evs /\
     forall ev, In ev evs -> kind (ev_call ev) <> KSelect).
Proof.
  intros Hrun. split.
  - destruct (@setup_success ctx input env res env' Hrun) as [v vs env1 ? ? ? ? ? ? ? ? ? Hv Hvs].
    exists vs. now rewrite Hv.
  - destruct (setup_events ctx input env) as (evs & Hlog & Hout).
    rewrite Hrun in Hlog, Hout. simpl in Hlog, Hout.
    exists evs. split; [exact Hlog|].
    inversion Hout; subst. intros ev Hin. simpl in Hin.
    repeat (destruct Hin as [<-|Hin]; [discriminate|]). contradiction.
Qed.

(** C2 (amended): after a run of [setup] that returned, provided the
    configuration written is kept ([keeps_configuration]), [isAvailable]
    fails: with [ErrSettingsInit] (AlreadyInitialized) when the lock is not
    set, with [ErrInstallLock] when it is.  [setup] itself makes no such
    check. *)
Theorem setup_then_unavailable ctx input env res env' :
  keeps_configuration S ->
  setup ctx input env = (inr res, env') ->
  fst (isAvailable S env')
  = inl (if INSTALL_LOCK S then ErrInstallLock else ErrSettingsInit).
Proof.
  intros (Hupd & Hcreate & Hrole & Hconfirm) Hrun.
  destruct (@setup_success ctx input env res env' Hrun)
    as [v vs env1 ms w2 x w3 w4 w5 y w6 z _ _ _ _ H3 H4 H5 H6].
  unfold awaited in H3, H4, H5, H6.
  injection H3 as H3 <-. injection H4 as _ <-.
  injection H5 as _ <-. injection H6 as _ H6.
  assert (Hinit : initialized S (sigma env')).
  { rewrite <- H6. apply Hconfirm, Hrole, Hcreate. eapply Hupd, H3. }
  destruct (INSTALL_LOCK S) eqn:Hlock.
  - unfold isAvailable. now rewrite Hlock.
  - destruct Hinit as [cfg Hcfg].
    rewrite (isAvailable_unlocked env' Hlock). simpl.
    unfold read_configuration. now rewrite Hcfg.
Qed.

(** C7: when the checks, the migrations and the update of the
    configuration have succeeded and [createLocalUser] fails with [e],
    [setup] fails with [e]; the failed call is the last one it makes (it
    calls nothing to undo the update that succeeded just before), and the
    state is the one [createLocalUser] left. *)
Theorem account_failure_keeps_configuration
  ctx input env v vs env1 ms w2 x w3 cfg w4 e w5 :
  validate input env = (inr v, env1) ->
  outcome v = inr vs ->
  awaited (MigrationService_listPending S) (sigma env1) = (inr ms, w2) ->
  awaited (MigrationService_run S ms) w2 = (inr x, w3) ->
  awaited (SettingsService_update S (settings input)) w3 = (inr cfg, w4) ->
  awaited (UsersService_createLocalUser S ctx (email (user input))
             (password (user input)) (username (user input))) w4
  = (inl e, w5) ->
  setup ctx input env =
  (inl e,
   {| sigma := w5;
      log := log env1
             ++ [Event_ok CListPending; Event_ok (CRun ms);
                 Event_ok (CUpdate (settings input));
                 Event_failed
                   (CCreateLocalUser ctx (email (user input))
                      (password (user input)) (username (user input))) e]
   |}).
Proof.
  unfold awaited. intros Hv Hvs [= H1 <-] [= H2 <-] [= H3 <-] [= H4 <-].
  unfold setup. rewrite input_copy, bind_eq, Hv, bind_eq, await_eq, Hvs.
  rewrite bind_call, H1. rewrite bind_call. cbn [sigma logged]. rewrite H2.
  rewrite bind_call. cbn [sigma logged]. rewrite H3.
  rewrite bind_call. cbn [sigma logged]. rewrite H4.
  unfold logged; cbn [sigma log]. rewrite <- !app_assoc. reflexivity.
Qed.

End Orchestration.

(** ** Runs of the in-memory application *)

Section MemRuns.

Import Mem.

(** The record is found when the database answers and holds one. *)
Lemma mem_initialized lock (w : Store) :
  initialized (services lock) w <->
  st_online w = true /\ st_config w <> None.
Proof.
  unfold initialized. simpl. unfold select.
  destruct (st_online w), (st_config w) as [c|]; simpl; split.
  - intros _. split; [reflexivity | discriminate].
  - intros _. now exists c.
  - intros [cfg [=]].
  - intros [_ H]. now elim H.
  - intros [cfg [=]].
  - intros [[=] _].
  - intros [cfg [=]].
  - intros [[=] _].
Qed.

(** The in-memory stores keep the configuration that was written. *)
Lemma mem_keeps_configuration lock : keeps_configuration (services lock).
Proof.
  repeat split.
  - intros s w cfg. rewrite mem_initialized. simpl. unfold update.
    destruct (st_online w) eqn:Hon; simpl; [|discriminate].
    intros _. split; [exact Hon | discriminate].
  - intros ctx mail pw name w. rewrite !mem_initialized. simpl.
    unfold createLocalUser. destruct (find_account _ _); simpl; auto.
  - intros id role w. rewrite !mem_initialized. simpl.
    unfold setRole. destruct (find_account _ _); simpl; auto.
  - intros id mail w. rewrite !mem_initialized. simpl.
    unfold confirmEmail. destruct (find_account _ _); simpl; auto.
Qed.

(** The scenario of section 8: fresh deployment, valid input. *)
Example setup_scenario :
  run_setup (admin_input false) fresh =
  (inr (result false "S"
          {| acc_id := "user:admin"; acc_email := Some "a@b.com";
             acc_username := "admin"; acc_password := "Str0ngPW!";
             acc_role := "COMMENTER"; acc_confirmed := false |}),
   {| st_online := true; st_config := Some "S";
      st_accounts := [{| acc_id := "user:admin"; acc_email := Some "a@b.com";
                         acc_username := "admin"; acc_password := "Str0ngPW!";
                         acc_role := "ADMIN"; acc_confirmed := true |}];
      st_pending := []; st_applied := ["001-indexes"; "002-roles"] |}).
Proof. reflexivity. Qed.

(** A migration that fails: nothing is written, no account is created, and
    the migration applied before it stays applied. *)
Example setup_broken_migration :
  run_setup (admin_input false) broken =
  (inl (ErrOther "ErrMigrationFailed"),
   {| st_online := true; st_config := None; st_accounts := [];
      st_pending := ["broken"; "003-cleanup"];
      st_applied := ["001-indexes"] |}).
Proof. reflexivity. Qed.

(** [Promise.all] rejects with the rejection that came first: the password
    check of the in-memory application settles before the username check. *)
Example validate_first_rejection :
  settle (fst (validate (input false "S" (Some "a@b.com") "" "short")
                 (start false fresh)))
  = inl (ErrOther "ErrPasswordTooShort").
Proof. reflexivity. Qed.

(** C1, counterexample: with the install lock set, [isAvailable] fails with
    [ErrInstallLock] and [setup], on the same state, returns. *)
Lemma setup_ignores_install_lock :
  (exists res env',
     setup (S := services true) tt (admin_input true) (start true fresh)
     = (inr res, env')) /\
  fst (isAvailable (services true) (start true fresh)) = inl ErrInstallLock.
Proof.
  split; [|reflexivity].
  eexists. eexists. vm_compute. reflexivity.
Qed.

(** C2, counterexample: after a first [setup] that returned and wrote the
    configuration, a second [setup] for another administrator returns as
    well; with the input of the first it fails, but on the name that is
    taken. *)
Lemma setup_runs_twice :
  exists res1 env1 res2 env2,
    setup (S := services false) tt (admin_input false) (start false fresh)
    = (inr res1, env1) /\
    st_config (sigma env1) = Some "S" /\
    setup (S := services false) tt
      (input false "S2" (Some "c@d.com") "root" "An0therPW!") env1
    = (inr res2, env2) /\
    fst (setup (S := services false) tt (admin_input false) env1)
    = inl (ErrOther "ErrUsernameTaken").
Proof.
  do 4 eexists. split; [vm_compute; reflexivity|].
  split; [vm_compute; reflexivity|].
  split; vm_compute; reflexivity.
Qed.

(** On this store, which hands out copies, [setup] returns, the account in
    the store is an administrator whose email is confirmed, and the copy
    returned is the account as [createLocalUser] made it. *)
Example copy_store_returns_account_as_created :
  exists res env',
    setup (S := services false) tt (admin_input false) (start false fresh)
    = (inr res, env') /\
    acc_role (res_user res) = "COMMENTER" /\
    acc_confirmed (res_user res) = false /\
    find_account (acc_id (res_user res)) (st_accounts (sigma env'))
    = Some stored_admin.
Proof.
  do 2 eexists. split; [vm_compute; reflexivity|].
  repeat split; vm_compute; reflexivity.
Qed.

(** *** The theorems above, on runs of the in-memory application *)

(** [select] of the in-memory application returns the store it was
    given. *)
Lemma mem_select_reads lock field (w : World (services lock)) :
  snd (SettingsService_select (services lock) field w) = w.
Proof.
  simpl. unfold select.
  destruct (st_online w); [destruct (st_config w)|]; reflexivity.
Qed.

(** The scenario of section 8 returns, so its input passes [validate] and
    no read of the configuration is among its calls. *)
Lemma setup_requires_valid_input_witness :
  (exists vs,
     settle (fst (validate (admin_input false) (start false fresh))) = inr vs) /\
  (exists evs,
     log (snd (setup (S := services false) tt (admin_input false)
                 (start false fresh)))
     = log (start false fresh) ++ evs /\
     forall ev, In ev evs -> kind (ev_call ev) <> KSelect).
Proof.
  apply (@setup_requires_valid_input (services false) tt (admin_input false)
           (start false fresh) (result false "S" created_admin)).
  vm_compute. reflexivity.
Defined.

(** After the scenario of section 8, [isAvailable] answers
    [ErrSettingsInit]. *)
Lemma setup_then_unavailable_witness :
  fst (isAvailable (services false)
         (snd (setup (S := services false) tt (admin_input false)
                 (start false fresh))))
  = inl ErrSettingsInit.
Proof.
  apply (@setup_then_unavailable (services false) tt (admin_input false)
           (start false fresh) (result false "S" created_admin)).
  - apply mem_keeps_configuration.
  - vm_compute. reflexivity.
Defined.

(** The four answers of [isAvailable]: lock set; record found; no record;
    database not answering. *)
Lemma isAvailable_decision_witness :
  isAvailable (services true) (start true fresh)
  = (inl ErrInstallLock, start true fresh) /\
  fst (isAvailable (services false)
         (start false (with_config (Some "S") fresh)))
  = inl ErrSettingsInit /\
  fst (isAvailable (services false) (start false fresh)) = inr tt /\
  fst (isAvailable (services false) (start false (offline fresh)))
  = inl (ErrOther "MongoNetworkError").
Proof.
  split; [|split; [|split]].
  - apply (@isAvailable_decision (services true)). reflexivity.
  - apply (@isAvailable_decision (services false)) with (cfg := "S");
      reflexivity.
  - apply (@isAvailable_decision (services false)); reflexivity.
  - apply (@isAvailable_decision (services false));
      [reflexivity | reflexivity | discriminate].
Defined.

(** Three calls of [isAvailable] on a fresh deployment leave it fresh. *)
Lemma isAvailable_read_only_witness :
  sigma (Nat.iter 3 (fun env' => snd (isAvailable (services false) env'))
           (start false fresh))
  = sigma (start false fresh).
Proof.
  apply (@isAvailable_read_only (services false)).
  apply mem_select_reads.
Defined.

(** No email, and an empty email, on a fresh deployment. *)
Lemma missing_email_fails_first_witness :
  setup (S := services false) tt (input false "S" None "admin" "Str0ngPW!")
    (start false fresh)
  = (inl ErrMissingEmail, start false fresh) /\
  setup (S := services false) tt (input false "S" (Some "") "admin" "Str0ngPW!")
    (start false fresh)
  = (inl ErrMissingEmail, start false fresh).
Proof.
  split.
  - apply (@missing_email_fails_first (services false)). reflexivity.
  - apply (@missing_email_fails_first (services false)). reflexivity.
Defined.

(** An empty username and a short password: two checks fail. *)
Lemma validate_fan_out_witness :
  exists evs,
    log (snd (validate (input false "S" (Some "a@b.com") "" "short")
                (start false fresh)))
    = log (start false fresh) ++ evs /\
    (exists n,
       map (@ev_call (services false)) evs
       = firstn n (validate_calls
                     (input false "S" (Some "a@b.com") "" "short"))) /\
    ((exists vs,
        settle (fst (validate (input false "S" (Some "a@b.com") "" "short")
                       (start false fresh))) = inr vs) <->
     length evs = 3 /\ Forall (fun ev => ev_error ev = None) evs) /\
    (forall e,
       settle (fst (validate (input false "S" (Some "a@b.com") "" "short")
                      (start false fresh))) = inl e ->
       exists ev, In ev evs /\ ev_error ev = Some e) /\
    (forall ev,
       In ev evs -> ev_error ev <> None ->
       exists e,
         settle (fst (validate (input false "S" (Some "a@b.com") "" "short")
                        (start false fresh))) = inl e).
Proof.
  apply (@validate_fan_out (services false)). reflexivity.
Defined.

(** The name is taken: [setup] fails on [createLocalUser] and the
    configuration it wrote is in the store. *)
Lemma account_failure_keeps_configuration_witness :
  fst (setup (S := services false) tt (admin_input false) (start false taken))
  = inl (ErrOther "ErrUsernameTaken") /\
  st_config (sigma (snd (setup (S := services false) tt (admin_input false)
                           (start false taken))))
  = Some "S".
Proof.
  rewrite (@account_failure_keeps_configuration (services false) tt
             (admin_input false) (start false taken)
             _ _ _ _ _ _ _ _ _ _ _
             eq_refl eq_refl eq_refl eq_refl eq_refl eq_refl).
  split; reflexivity.
Defined.

End MemRuns.

(** * Further properties of [isAvailable], [validate] and [setup] *)

Section MoreAvailability.

Variable S : Services.

Implicit Types env : Env S.

(** X1: [isAvailable] succeeds exactly when the lock is not set and the
    read of the configuration fails with [ErrSettingsNotInit]; and
    [ErrSettingsNotInit] is never the error of [isAvailable]: the catch
    turns it into success. *)
Theorem isAvailable_succeeds_iff env :
  (fst (isAvailable S env) = inr tt <->
   INSTALL_LOCK S = false /\
   settle (fst (read_configuration env)) = inl ErrSettingsNotInit) /\
  fst (isAvailable S env) <> inl ErrSettingsNotInit.
Proof.
  destruct (INSTALL_LOCK S) eqn:Hlock.
  - unfold isAvailable. rewrite Hlock. simpl. split; [|discriminate].
    split; [discriminate | intros [[=] _]].
  - rewrite (isAvailable_unlocked env Hlock). simpl.
    destruct (settle (fst (read_configuration env))) as [e|cfg].
    + destruct e; simpl; split; try discriminate;
        (split; [try discriminate; auto | intros [_ [=]]; auto]).
    + split; [|discriminate]. split; [discriminate | intros [_ [=]]].
Qed.

(** X2: when [SettingsService.select] is a read (it returns the state it
    was given), a second [isAvailable] answers as the first did. *)
Theorem isAvailable_repeatable env :
  (forall field w, snd (SettingsService_select S field w) = w) ->
  fst (isAvailable S (snd (isAvailable S env))) = fst (isAvailable S env).
Proof.
  intros Hread. destruct (INSTALL_LOCK S) eqn:Hlock.
  - unfold isAvailable. rewrite Hlock. reflexivity.
  - rewrite (isAvailable_unlocked (snd (isAvailable S env)) Hlock).
    rewrite (isAvailable_unlocked env Hlock). simpl.
    unfold read_configuration. simpl. now rewrite Hread.
Qed.

End MoreAvailability.

Section MoreValidation.

Variable S : Services.

Implicit Types (env : Env S) (input : SetupInput S).

(** X3: [validate] looks at the email only to see whether there is one:
    two inputs with the same settings, username and password, whose emails
    are both present (or both missing), make the same calls and get the
    same answer.  The email is given to no check. *)
Theorem validate_email_presence_only input1 input2 env :
  settings input1 = settings input2 ->
  username (user input1) = username (user input2) ->
  password (user input1) = password (user input2) ->
  falsy (email (user input1)) = falsy (email (user input2)) ->
  validate input1 env = validate input2 env.
Proof.
  intros Hs Hu Hp Hm. unfold validate. now rewrite Hs, Hu, Hp, Hm.
Qed.

(** X4: with an email, when none of the three checks throws, all three are
    called, in the order username, password, settings, each on the state
    the one before left and whatever the promises of the others come to;
    [validate] returns the [Promise.all] of the three promises, and when
    that one rejects it is with the error of a check that no other
    rejected check settled before. *)
Theorem validate_runs_all_checks input env p1 w1 p2 w2 p3 w3 :
  falsy (email (user input)) = false ->
  UsersService_isValidUsername S (username (user input)) false (sigma env)
  = (inr p1, w1) ->
  UsersService_isValidPassword S (password (user input)) w1 = (inr p2, w2) ->
  SettingsModel_validate S (SettingsModel_new S (settings input)) w2
  = (inr p3, w3) ->
  validate input env =
  (inr (Promise_all [p1; p2; p3]),
   {| sigma := w3;
      log := log env
             ++ [{| ev_call := username_check input; ev_error := rejection p1 |};
                 {| ev_call := password_check input; ev_error := rejection p2 |};
                 {| ev_call := settings_check input; ev_error := rejection p3 |}]
   |}) /\
  (forall e,
     outcome (Promise_all [p1; p2; p3]) = inl e ->
     exists p,
       In p [p1; p2; p3] /\ outcome p = inl e /\
       forall q e', In q [p1; p2; p3] -> outcome q = inl e' ->
                    settled_at p <= settled_at q).
Proof.
  intros Hmail H1 H2 H3. split.
  - unfold validate. rewrite Hmail.
    rewrite bind_eq, invoke_eq, H1. cbn [fst snd failure].
    rewrite bind_eq, invoke_eq. cbn [sigma logged]. rewrite H2.
    cbn [fst snd failure].
    rewrite bind_eq, invoke_eq. cbn [sigma logged]. rewrite H3.
    cbn [fst snd failure]. unfold ret, logged. cbn [sigma log].
    rewrite <- !app_assoc. reflexivity.
  - intros e. unfold Promise_all.
    destruct (first_rejection [p1; p2; p3]) as [[t e0]|] eqn:Hr;
      [|discriminate].
    simpl. intros [= ->]. apply first_rejection_some in Hr.
    destruct Hr as [(p & Hin & Ho & Ht) Hmin].
    exists p. repeat split; try assumption.
    intros q e' Hq Hoq. rewrite Ht. eapply Hmin; eassumption.
Qed.

End MoreValidation.

Section MoreOrchestration.

Variable S : Services.

Implicit Types (env : Env S) (input : SetupInput S) (ctx : Ctx S).

(** X5: when [validate] fails on the input (it throws, or its promise
    rejects), [setup] fails with the same error and stops there: the state
    and the log are those [validate] left, so no migration is listed or
    run, no configuration written, no account created. *)
Theorem setup_stops_at_validation ctx input env e :
  settle (fst (validate input env)) = inl e ->
  setup ctx input env = (inl e, snd (validate input env)).
Proof.
  intros Hv. unfold setup. rewrite input_copy, bind_eq.
  destruct (validate input env) as [[e'|v] env1]; simpl in Hv |- *.
  - now injection Hv as ->.
  - rewrite bind_eq, await_eq, Hv. reflexivity.
Qed.

(** X6: when the checks and [listPending] have succeeded and
    [MigrationService.run] fails with [e], [setup] fails with [e]; the
    failed call is its last one and the state is the one [run] left: what
    [run] had applied before failing is not undone. *)
Theorem migration_failure_is_final ctx input env v vs env1 ms w2 e w3 :
  validate input env = (inr v, env1) ->
  outcome v = inr vs ->
  awaited (MigrationService_listPending S) (sigma env1) = (inr ms, w2) ->
  awaited (MigrationService_run S ms) w2 = (inl e, w3) ->
  setup ctx input env =
  (inl e,
   {| sigma := w3;
      log := log env1 ++ [Event_ok CListPending; Event_failed (CRun ms) e] |}).
Proof.
  unfold awaited. intros Hv Hvs [= H1 <-] [= H2 <-].
  unfold setup. rewrite input_copy, bind_eq, Hv, bind_eq, await_eq, Hvs.
  rewrite bind_call, H1. rewrite bind_call. cbn [sigma logged]. rewrite H2.
  unfold logged; cbn [sigma log]. rewrite <- !app_assoc. reflexivity.
Qed.

(** X7: once the account is created, [setRole] and [confirmEmail] are both
    called when [setRole] returns a promise, also a promise that rejects;
    if one of the two promises rejects, [setup] fails with the error of
    [Promise.all], and the two calls are its last ones: it calls nothing to
    undo the account or the configuration. *)
Theorem finalize_failure_keeps_account
  ctx input env v vs env1 ms w2 x w3 cfg w4 u w5 g w6 f w7 e :
  validate input env = (inr v, env1) ->
  outcome v = inr vs ->
  awaited (MigrationService_listPending S) (sigma env1) = (inr ms, w2) ->
  awaited (MigrationService_run S ms) w2 = (inr x, w3) ->
  awaited (SettingsService_update S (settings input)) w3 = (inr cfg, w4) ->
  awaited (UsersService_createLocalUser S ctx (email (user input))
             (password (user input)) (username (user input))) w4
  = (inr u, w5) ->
  UsersService_setRole S (user_id S u) "ADMIN" w5 = (inr g, w6) ->
  UsersService_confirmEmail S (user_id S u) (email (user input)) w6
  = (inr f, w7) ->
  outcome (Promise_all [g; f]) = inl e ->
  fst (setup ctx input env) = inl e /\
  log (snd (setup ctx input env)) =
  log env1
  ++ [Event_ok CListPending; Event_ok (CRun ms);
      Event_ok (CUpdate (settings input));
      Event_ok
        (CCreateLocalUser ctx (email (user input))
           (password (user input)) (username (user input)));
      {| ev_call := CSetRole (user_id S u) "ADMIN"; ev_error := rejection g |};
      {| ev_call := CConfirmEmail (user_id S u) (email (user input));
         ev_error := rejection f |}].
Proof.
  unfold awaited.
  intros Hv Hvs [= H1 <-] [= H2 <-] [= H3 <-] [= H4 <-] H5 H6 Hall.
  unfold setup. rewrite input_copy, bind_eq, Hv, bind_eq, await_eq, Hvs.
  rewrite bind_call, H1. rewrite bind_call. cbn [sigma logged]. rewrite H2.
  rewrite bind_call. cbn [sigma logged]. rewrite H3.
  rewrite bind_call. cbn [sigma logged]. rewrite H4.
  rewrite bind_eq, invoke_eq. cbn [sigma logged]. rewrite H5.
  cbn [fst snd failure].
  rewrite bind_eq, invoke_eq. cbn [sigma logged]. rewrite H6.
  cbn [fst snd failure].
  rewrite bind_eq, await_eq, Hall.
  unfold logged; cbn [fst snd sigma log]. rewrite <- !app_assoc.
  split; reflexivity.
Qed.

(** A promise that fulfilled is not a rejection. *)
Lemma fulfilled_no_rejection A (r : Err + Promise A) (a : A) :
  settle r = inr a -> exists p, r = inr p /\ rejection p = None.
Proof.
  destruct r as [e|p]; simpl; [discriminate|].
  intros Ho. exists p. split; [reflexivity|]. unfold rejection. now rewrite Ho.
Qed.

Lemma Promise_all_of_fulfilled A (ps : list (Promise A)) :
  Forall (fun p => rejection p = None) ps ->
  exists vs, outcome (Promise_all ps) = inr vs.
Proof.
  intros H. apply first_rejection_none in H. unfold Promise_all.
  rewrite H. simpl. eauto.
Qed.

(** The calls of a run of [validate] that succeeded. *)
Lemma validate_success_log input env v env1 vs :
  validate input env = (inr v, env1) ->
  outcome v = inr vs ->
  log env1 = log env ++ map Event_ok (validate_calls input).
Proof.
  intros Hv Hvs.
  destruct (falsy (email (user input))) eqn:Hmail.
  { unfold validate in Hv. rewrite Hmail in Hv. discriminate Hv. }
  destruct (validate_run input env Hmail) as (evs & Hlog & Hout).
  rewrite Hv in Hlog, Hout. simpl in Hlog, Hout. rewrite Hvs in Hout.
  inversion Hout; subst. exact Hlog.
Qed.

(** X8: a run of [setup] that returns has made exactly nine calls, all
    successful, in this order: the three checks; [listPending], on the
    state the checks left; [run], on the list [listPending] fulfilled with
    and the state it left; [update], on the settings of the input and the
    state [run] left; [createLocalUser], on the context, email, password
    and username of the input and the state [update] left; [setRole] and
    [confirmEmail], on the id of the user the promise of [createLocalUser]
    fulfilled with.  The user returned is that user, and the settings
    returned are those the promise of [update] fulfilled with in this run,
    not those of the input. *)
Theorem setup_success_trace ctx input env res env' :
  setup ctx input env = (inr res, env') ->
  exists v vs env1 ms w2 x w3 w4 w5,
    validate input env = (inr v, env1) /\
    outcome v = inr vs /\
    awaited (MigrationService_listPending S) (sigma env1) = (inr ms, w2) /\
    awaited (MigrationService_run S ms) w2 = (inr x, w3) /\
    awaited (SettingsService_update S (settings input)) w3
    = (inr (res_settings res), w4) /\
    awaited (UsersService_createLocalUser S ctx (email (user input))
               (password (user input)) (username (user input))) w4
    = (inr (res_user res), w5) /\
    log env' =
    log env
    ++ map Event_ok
         (validate_calls input
          ++ [CListPending; CRun ms; CUpdate (settings input);
              CCreateLocalUser ctx (email (user input))
                (password (user input)) (username (user input))]
          ++ finalize_calls (res_user res) input).
Proof.
  intros Hrun.
  destruct (setup_success _ _ _ Hrun)
    as [v vs env1 ms w2 x w3 w4 w5 y w6 z Hv Hvs H1 H2 H3 H4 H5 H6].
  exists v, vs, env1, ms, w2, x, w3, w4, w5.
  repeat (split; [assumption|]).
  rewrite map_app, app_assoc, <- (validate_success_log _ _ Hv Hvs).
  revert Hrun. unfold awaited in H1, H2, H3, H4, H5, H6.
  injection H1 as H1 <-. injection H2 as H2 <-. injection H3 as H3 <-.
  injection H4 as H4 <-. injection H5 as H5 <-. injection H6 as H6 _.
  apply fulfilled_no_rejection in H5, H6.
  destruct H5 as (g & H5 & Hg), H6 as (f & H6 & Hf).
  destruct (@Promise_all_of_fulfilled _ [g; f]) as [vs' Hall];
    [repeat constructor; assumption|].
  unfold setup. rewrite input_copy, bind_eq, Hv, bind_eq, await_eq, Hvs.
  rewrite bind_call, H1. rewrite bind_call. cbn [sigma logged]. rewrite H2.
  rewrite bind_call. cbn [sigma logged]. rewrite H3.
  rewrite bind_call. cbn [sigma logged]. rewrite H4.
  rewrite bind_eq, invoke_eq. cbn [sigma logged].
  destruct (UsersService_setRole S _ _ _) as [r5 w6'].
  cbn [fst snd] in H5 |- *. subst r5. cbn [failure].
  rewrite bind_eq, invoke_eq. cbn [sigma logged].
  destruct (UsersService_confirmEmail S _ _ _) as [r6 w7'].
  cbn [fst snd] in H6 |- *. subst r6. cbn [failure].
  rewrite bind_eq, await_eq, Hall. unfold ret.
  intros [= _ <-]. rewrite Hg, Hf.
  unfold logged; cbn [sigma log]. rewrite <- !app_assoc. reflexivity.
Qed.

(** C3: in a run of [setup] that returns, with an account store that
    updates the account [createLocalUser] returned
    ([updates_in_place]), the [user] of the result has the role ['ADMIN']
    and a confirmed email when [setup] returns. *)
Theorem setup_returns_administrator (V : AccountView S)
  ctx input env res env' :
  updates_in_place V ->
  setup ctx input env = (inr res, env') ->
  role_of V (sigma env') (res_user res) = Some "ADMIN" /\
  confirmed_of V (sigma env') (res_user res) = true.
Proof.
  intros (Hrole & Hconfirm & Hkeep & _) Hrun.
  destruct (setup_success _ _ _ Hrun)
    as [v vs env1 ms w2 x w3 w4 w5 y w6 z _ _ _ _ _ _ H5 H6].
  split.
  - pose proof H6 as H6'. unfold awaited in H6'. injection H6' as _ <-.
    rewrite Hkeep. exact (Hrole _ _ _ _ _ H5).
  - exact (Hconfirm _ _ _ _ _ H6).
Qed.

End MoreOrchestration.

(** ** The further properties, on runs of the in-memory application *)

Section MoreMemRuns.

Import Mem.

(** With a configuration stored, [isAvailable] answers [ErrSettingsInit]
    twice. *)
Lemma isAvailable_repeatable_witness :
  fst (isAvailable (services false)
         (snd (isAvailable (services false)
                 (start false (with_config (Some "S") fresh)))))
  = fst (isAvailable (services false)
           (start false (with_config (Some "S") fresh))).
Proof.
  apply (@isAvailable_repeatable (services false)).
  apply mem_select_reads.
Defined.

(** An address and a string that is none are the same to [validate]. *)
Lemma validate_email_presence_only_witness :
  validate (input false "S" (Some "a@b.com") "admin" "Str0ngPW!")
    (start false fresh)
  = validate (input false "S" (Some "not an address") "admin" "Str0ngPW!")
      (start false fresh).
Proof.
  apply (@validate_email_presence_only (services false)); reflexivity.
Defined.

(** An empty username and a short password: the three checks are called,
    two reject, and the password check, which settles first, gives the
    error. *)
Lemma validate_runs_all_checks_witness :
  settle (fst (validate (input false "S" (Some "a@b.com") "" "short")
                 (start false fresh)))
  = inl (ErrOther "ErrPasswordTooShort") /\
  map (@ev_error (services false))
    (log (snd (validate (input false "S" (Some "a@b.com") "" "short")
                 (start false fresh))))
  = [Some (ErrOther "ErrMissingUsername");
     Some (ErrOther "ErrPasswordTooShort"); None].
Proof.
  rewrite (proj1 (@validate_runs_all_checks (services false)
                    (input false "S" (Some "a@b.com") "" "short")
                    (start false fresh) _ _ _ _ _ _
                    eq_refl eq_refl eq_refl eq_refl)).
  split; reflexivity.
Defined.

(** A short password: [setup] stops after the three checks, on a store that
    is still fresh. *)
Lemma setup_stops_at_validation_witness :
  setup (S := services false) tt
    (input false "S" (Some "a@b.com") "admin" "short") (start false fresh)
  = (inl (ErrOther "ErrPasswordTooShort"),
     snd (validate (input false "S" (Some "a@b.com") "admin" "short")
            (start false fresh))) /\
  sigma (snd (validate (input false "S" (Some "a@b.com") "admin" "short")
                (start false fresh)))
  = fresh.
Proof.
  split; [|reflexivity].
  apply (@setup_stops_at_validation (services false)). reflexivity.
Defined.

(** The second migration fails: the first stays applied, and there is
    neither configuration nor account. *)
Lemma migration_failure_is_final_witness :
  fst (setup (S := services false) tt (admin_input false) (start false broken))
  = inl (ErrOther "ErrMigrationFailed") /\
  sigma (snd (setup (S := services false) tt (admin_input false)
                (start false broken)))
  = with_migrations ["broken"; "003-cleanup"] ["001-indexes"] fresh.
Proof.
  rewrite (@migration_failure_is_final (services false) tt
             (admin_input false) (start false broken)
             _ _ _ _ _ _ _
             eq_refl eq_refl eq_refl eq_refl).
  split; reflexivity.
Defined.

(** The role is refused: both calls are made, [setup] fails with the
    refusal and calls nothing after them. *)
Lemma finalize_failure_keeps_account_witness :
  fst (setup (S := MemDenied.services) tt MemDenied.admin_input
         (MemDenied.start fresh))
  = inl (ErrOther "ErrNotAuthorized") /\
  map (fun ev => (kind (ev_call ev), ev_error ev))
    (log (snd (setup (S := MemDenied.services) tt MemDenied.admin_input
                 (MemDenied.start fresh))))
  = [(KIsValidUsername, None); (KIsValidPassword, None);
     (KSettingsValidate, None); (KListPending, None); (KRun, None);
     (KUpdate, None); (KCreateLocalUser, None);
     (KSetRole, Some (ErrOther "ErrNotAuthorized")); (KConfirmEmail, None)].
Proof.
  destruct (@finalize_failure_keeps_account MemDenied.services tt
              MemDenied.admin_input (MemDenied.start fresh)
              _ _ _ _ _ _ _ _ _ _ _ _ _ _ _ _
              eq_refl eq_refl eq_refl eq_refl eq_refl eq_refl
              eq_refl eq_refl eq_refl) as [Herr Hlog].
  split; [exact Herr|]. rewrite Hlog. reflexivity.
Defined.

(** The scenario of section 8, step by step. *)
Lemma setup_success_trace_witness :
  exists v vs env1 ms w2 x w3 w4 w5,
    validate (admin_input false) (start false fresh) = (inr v, env1) /\
    outcome v = inr vs /\
    awaited (MigrationService_listPending (services false)) (sigma env1)
    = (inr ms, w2) /\
    awaited (MigrationService_run (services false) ms) w2 = (inr x, w3) /\
    awaited (SettingsService_update (services false)
               (settings (admin_input false))) w3
    = (inr (res_settings (result false "S" created_admin)), w4) /\
    awaited (UsersService_createLocalUser (services false) tt
               (email (user (admin_input false)))
               (password (user (admin_input false)))
               (username (user (admin_input false)))) w4
    = (inr (res_user (result false "S" created_admin)), w5) /\
    log (snd (setup (S := services false) tt (admin_input false)
                (start false fresh)))
    = log (start false fresh)
      ++ map Event_ok
           (validate_calls (admin_input false)
            ++ [CListPending; CRun ms; CUpdate (settings (admin_input false));
                CCreateLocalUser (S := services false) tt
                  (email (user (admin_input false)))
                  (password (user (admin_input false)))
                  (username (user (admin_input false)))]
            ++ finalize_calls (S := services false)
                 (res_user (result false "S" created_admin))
                 (admin_input false)).
Proof.
  apply (@setup_success_trace (services false) tt (admin_input false)
           (start false fresh) (result false "S" created_admin)).
  vm_compute. reflexivity.
Defined.

(** *** The store that hands out the account itself *)

Lemma find_update_account k id (f : Account -> Account) (l : list Account) :
  (forall a, acc_id (f a) = acc_id a) ->
  find_account k (update_account id f l)
  = option_map (fun a => if (acc_id a =? id)%string then f a else a)
      (find_account k l).
Proof.
  intros Hid. unfold find_account, update_account.
  induction l as [|a l IH]; simpl; [reflexivity|].
  assert (Ha : acc_id (if (acc_id a =? id)%string then f a else a) = acc_id a).
  { destruct (acc_id a =? id)%string; [apply Hid | reflexivity]. }
  rewrite Ha. destruct (acc_id a =? k)%string; [reflexivity | exact IH].
Qed.

(** The account store of [MemShared] updates the account that
    [createLocalUser] returned. *)
Lemma memshared_updates_in_place :
  updates_in_place MemShared.view.
Proof.
  unfold updates_in_place, awaited. simpl. repeat split.
  - intros u role w y w'. unfold setRole.
    destruct (find_account (MemShared.h_id u) (st_accounts w)) as [a|] eqn:Hf;
      simpl; [|discriminate].
    intros [= _ <-]. simpl. rewrite find_update_account by reflexivity.
    rewrite Hf. simpl.
    apply find_some in Hf. destruct Hf as [_ Hf]. now rewrite Hf.
  - intros u mail w z w'. unfold confirmEmail.
    destruct (find_account (MemShared.h_id u) (st_accounts w)) as [a|] eqn:Hf;
      simpl; [|discriminate].
    intros [= _ <-]. simpl. rewrite find_update_account by reflexivity.
    rewrite Hf. simpl.
    apply find_some in Hf. destruct Hf as [_ Hf]. now rewrite Hf.
  - intros u id mail w. unfold confirmEmail.
    destruct (find_account id (st_accounts w)) as [a0|]; simpl; [|reflexivity].
    rewrite find_update_account by reflexivity.
    destruct (find_account (MemShared.h_id u) (st_accounts w)) as [a|]; simpl;
      [|reflexivity].
    now destruct (acc_id a =? id)%string.
  - intros u id role w. unfold setRole.
    destruct (find_account id (st_accounts w)) as [a0|]; simpl; [|reflexivity].
    rewrite find_update_account by reflexivity.
    destruct (find_account (MemShared.h_id u) (st_accounts w)) as [a|]; simpl;
      [|reflexivity].
    now destruct (acc_id a =? id)%string.
Qed.

(** The scenario of section 8 on that store: the user returned is an
    administrator whose email is confirmed. *)
Lemma setup_returns_administrator_witness :
  role_of MemShared.view
    (sigma (snd (setup (S := MemShared.services) tt MemShared.admin_input
                   (MemShared.start fresh))))
    {| MemShared.h_id := "user:admin" |}
  = Some "ADMIN" /\
  confirmed_of MemShared.view
    (sigma (snd (setup (S := MemShared.services) tt MemShared.admin_input
                   (MemShared.start fresh))))
    {| MemShared.h_id := "user:admin" |}
  = true.
Proof.
  apply (@setup_returns_administrator MemShared.services MemShared.view tt
           MemShared.admin_input (MemShared.start fresh)
           {| res_settings := ("S" : Settings MemShared.services);
              res_user := ({| MemShared.h_id := "user:admin" |}
                           : User MemShared.services) |}).
  - apply memshared_updates_in_place.
  - vm_compute. reflexivity.
Defined.

End MoreMemRuns.
